(** * craft_planner: a shallow embedding of [src/craft_planner.py]

    The planner searches the graph whose nodes are inventories ([State]) and
    whose edges are crafting recipes.  This file embeds the recipe compiler
    ([make_checker], [make_effector]), the goal test, the pruning heuristic,
    the expansion generator [graph], the time-boxed loop of [search] and the
    set-up of the search in [__main__], and proves properties of them.

    Conventions.
    - Python exceptions are values of [exn]; a call that may raise returns a
      [result].  [result] is a monad (stdpp's [x ← e; k]).
    - Inventory quantities, recipe amounts and recipe times are Python [int]s,
      modelled as [Z].  The only non-integer number of the program is
      [math.inf], produced by the heuristic: [num] adds it to [Z].  Adding an
      int to [math.inf] converts the int to a float, which raises
      OverflowError when the int is beyond the range of floats.
    - The loop of search asks the clock only for the float
      [time() - start_time].  A run takes as input the values that this
      expression has at the successive tests of the loop condition; they are
      finite floats, hence rationals (seconds), and comparing a float with the
      limit is exact.
    - [print] calls are not modelled. *)

From Stdlib Require Import ZArith QArith.
From stdpp Require Import base option list gmap strings.

Open Scope string_scope.
Open Scope list_scope.
Open Scope Z_scope.

(** ** Exceptions and results *)

(* see [class State] below *)
Abbreviation State := (list (string * Z)).

Inductive exn :=
  | KeyError (key : string)         (* a missing item in a State or a rule *)
  | KeyErrorState (key : State)     (* a missing State in a bookkeeping dict *)
  | IndexError                      (* heappop on an empty list *)
  | TypeError                       (* '<' between None and str *)
  | OverflowError.                  (* an int too large to convert to float *)

Inductive result (A : Type) :=
  | Ok (a : A)
  | Raise (e : exn).
Arguments Ok {A} a.
Arguments Raise {A} e.

#[global] Instance result_ret : MRet result := @Ok.
#[global] Instance result_bind : MBind result := fun A B f m =>
  match m with
  | Ok a => f a
  | Raise e => Raise e
  end.

(** ** Numbers: [int] and [math.inf] *)

Inductive num :=
  | Fin (z : Z)
  | Inf.

#[global] Instance num_eq_dec : EqDecision num.
Proof. solve_decision. Defined.

(* An int converts to a float when it rounds (to nearest, ties to even) to a
   finite double: when its magnitude is below 2^1024 - 2^970, the midpoint
   between the largest double and 2^1024. *)
Definition fits_float (x : Z) : bool :=
  Z.abs x <? 2 ^ 1024 - 2 ^ 970.

(* a + b: exact on two ints; an int added to inf is first converted to a
   float *)
Definition num_add (a b : num) : result num :=
  match a, b with
  | Fin x, Fin y => Ok (Fin (x + y))
  | Fin x, Inf | Inf, Fin x => if fits_float x then Ok Inf else Raise OverflowError
  | Inf, Inf => Ok Inf
  end.

(* a < b *)
Definition num_ltb (a b : num) : bool :=
  match a, b with
  | Fin x, Fin y => x <? y
  | Fin _, Inf => true
  | Inf, _ => false
  end.

(** ** class State(OrderedDict)

    A State is the ordered sequence of its (item, quantity) pairs: this is
    what [__key], equality and hashing look at. *)

(* state[item] *)
Fixpoint getitem (state : State) (item : string) : result Z :=
  match state with
  | [] => Raise (KeyError item)
  | (k, v) :: rest => if decide (k = item) then Ok v else getitem rest item
  end.

(* state[item] = value : an existing key keeps its position, a new key goes
   to the end *)
Fixpoint setitem (state : State) (item : string) (value : Z) : State :=
  match state with
  | [] => [(item, value)]
  | (k, v) :: rest =>
      if decide (k = item) then (k, value) :: rest
      else (k, v) :: setitem rest item value
  end.

(* dict.get(item, default) on a rule's sub-dictionary *)
Fixpoint dict_get (d : list (string * Z)) (item : string) (default : Z) : Z :=
  match d with
  | [] => default
  | (k, v) :: rest => if decide (k = item) then v else dict_get rest item default
  end.

Definition keys {V} (d : list (string * V)) : list string := d.*1.

(* State.copy: a new State updated with every pair of the old one *)
Definition State_copy (state : State) : State :=
  foldl (fun new_state kv => setitem new_state kv.1 kv.2) [] state.

(* tuple '<' on the keys of two States: the first differing pair decides, a
   proper prefix is smaller *)
Definition pair_ltb (a b : string * Z) : bool :=
  match String.compare a.1 b.1 with
  | Lt => true
  | Gt => false
  | Eq => a.2 <? b.2
  end.

Fixpoint State_lt (self other : State) : bool :=
  match self, other with
  | [], [] => false
  | [], _ :: _ => true
  | _ :: _, [] => false
  | a :: self', b :: other' =>
      if decide (a = b) then State_lt self' other' else pair_ltb a b
  end.

(** ** Rules and the recipe compiler *)

(* One entry of Crafting['Recipes'].  'Requires' and 'Consumes' may be
   absent; the values under 'Requires' are never read by the program. *)
Record Rule := {
  Requires : option (list (string * bool));
  Consumes : option (list (string * Z));
  Produces : list (string * Z);
  Time : Z
}.

(* for item, value in rule['Consumes'].items():
       if state[item] < value: return False *)
Fixpoint check_consumes (state : State) (consumes : list (string * Z)) : result bool :=
  match consumes with
  | [] => Ok true
  | (item, value) :: rest =>
      q ← getitem state item;
      if q <? value then Ok false else check_consumes state rest
  end.

(* for item, value in rule['Requires'].items():
       if state[item] == 0: return False *)
Fixpoint check_requires (state : State) (requires : list (string * bool)) : result bool :=
  match requires with
  | [] => Ok true
  | (item, _) :: rest =>
      q ← getitem state item;
      if q =? 0 then Ok false else check_requires state rest
  end.

Definition make_checker (rule : Rule) (state : State) : result bool :=
  enough ← match Consumes rule with
           | Some consumes => check_consumes state consumes
           | None => Ok true
           end;
  if enough : bool
  then match Requires rule with
       | Some requires => check_requires state requires
       | None => Ok true
       end
  else Ok false.

(* next_state[item] += value *)
Definition iadd (next_state : State) (item : string) (value : Z) : result State :=
  q ← getitem next_state item;
  Ok (setitem next_state item (q + value)).

(* next_state[item] -= value *)
Definition isub (next_state : State) (item : string) (value : Z) : result State :=
  q ← getitem next_state item;
  Ok (setitem next_state item (q - value)).

Fixpoint produce (next_state : State) (produces : list (string * Z)) : result State :=
  match produces with
  | [] => Ok next_state
  | (item, value) :: rest => s ← iadd next_state item value; produce s rest
  end.

Fixpoint consume (next_state : State) (consumes : list (string * Z)) : result State :=
  match consumes with
  | [] => Ok next_state
  | (item, value) :: rest => s ← isub next_state item value; consume s rest
  end.

(* The value returned by effect(state). *)
Definition make_effector (rule : Rule) (state : State) : result State :=
  let next_state := State_copy state in
  produced ← produce next_state (Produces rule);
  match Consumes rule with
  | Some consumes => consume produced consumes
  | None => Ok produced
  end.

(* for item, value in goal.items(): if state[item] < value: return False *)
Fixpoint make_goal_checker (goal : list (string * Z)) (state : State) : result bool :=
  match goal with
  | [] => Ok true
  | (item, value) :: rest =>
      q ← getitem state item;
      if q <? value then Ok false else make_goal_checker rest state
  end.

(** ** States as objects

    [effect] receives a reference to a State and returns a reference to
    another one.  To say which object is written, the heap of State objects is
    made explicit here: [effect_obj] is [effect] on references, and
    [make_effector] above is the value it leaves at the returned reference
    (lemma [effect_obj_value]). *)

Abbreviation heap := (gmap positive State).

(* new_state = State(); new_state.update(self) *)
Definition State_copy_obj (self : positive) (h : heap) : positive * heap :=
  let new_state := fresh (dom h) in
  (new_state, <[new_state := State_copy (h !!! self)]> h).

Definition iadd_obj (next_state : positive) (item : string) (value : Z) (h : heap)
  : result heap :=
  s ← iadd (h !!! next_state) item value;
  Ok (<[next_state := s]> h).

Definition isub_obj (next_state : positive) (item : string) (value : Z) (h : heap)
  : result heap :=
  s ← isub (h !!! next_state) item value;
  Ok (<[next_state := s]> h).

Fixpoint produce_obj (next_state : positive) (produces : list (string * Z)) (h : heap)
  : result heap :=
  match produces with
  | [] => Ok h
  | (item, value) :: rest =>
      h' ← iadd_obj next_state item value h; produce_obj next_state rest h'
  end.

Fixpoint consume_obj (next_state : positive) (consumes : list (string * Z)) (h : heap)
  : result heap :=
  match consumes with
  | [] => Ok h
  | (item, value) :: rest =>
      h' ← isub_obj next_state item value h; consume_obj next_state rest h'
  end.

Definition effect_obj (rule : Rule) (state : positive) (h : heap)
  : result (positive * heap) :=
  let '(next_state, h0) := State_copy_obj state h in
  h1 ← produce_obj next_state (Produces rule) h0;
  h2 ← match Consumes rule with
       | Some consumes => consume_obj next_state consumes h1
       | None => Ok h1
       end;
  Ok (next_state, h2).

(** ** Compiled recipes and graph expansion *)

Module Recipe.
(* Recipe = namedtuple('Recipe', ['name', 'check', 'effect', 'cost']) *)
Record t := make {
  name : string;
  check : State → result bool;
  effect : State → result State;
  cost : Z
}.
End Recipe.

(* The body of the loop that builds all_recipes in __main__. *)
Definition compile (name : string) (rule : Rule) : Recipe.t :=
  Recipe.make name (make_checker rule) (make_effector rule) (Time rule).

Definition triple : Type := string * State * Z.

(* graph is a generator that reads the module-level list all_recipes; here the
   list is its first argument.  A generator that touches nothing the consumer
   writes is described by what it yields, in order, and by how it ends:
   [None] when it is exhausted, [Some e] when computing the next item raises
   [e]. *)
Fixpoint graph (all_recipes : list Recipe.t) (state : State)
  : list triple * option exn :=
  match all_recipes with
  | [] => ([], None)
  | r :: rest =>
      match Recipe.check r state with
      | Raise e => ([], Some e)
      | Ok false => graph rest state
      | Ok true =>
          match Recipe.effect r state with
          | Raise e => ([], Some e)
          | Ok next_state =>
              let '(yields, ending) := graph rest state in
              ((Recipe.name r, next_state, Recipe.cost r) :: yields, ending)
          end
      end
  end.

(** ** The heuristic *)

Definition tools : list string :=
  ["furnace"; "bench"; "wooden_pickaxe"; "wooden_axe"; "stone_pickaxe";
   "stone_axe"; "iron_pickaxe"; "iron_axe"].

Definition materials_with_heuristic_value : list (string * Z) :=
  [("coal", 1); ("cobble", 8); ("wood", 1); ("plank", 8); ("stick", 4);
   ("ore", 1); ("ingot", 6)].

(* for tool in tools: if state[tool] > 1: return inf
   ([true] stands for the early return) *)
Fixpoint tools_loop (state : State) (ts : list string) : result bool :=
  match ts with
  | [] => Ok false
  | tool :: rest =>
      q ← getitem state tool;
      if q >? 1 then Ok true else tools_loop state rest
  end.

(* for material in materials.keys():
       if state[material] > materials[material]: return inf *)
Fixpoint materials_loop (state : State) (materials : list (string * Z))
  (ks : list string) : result bool :=
  match ks with
  | [] => Ok false
  | material :: rest =>
      q ← getitem state material;
      cap ← getitem materials material;
      if q >? cap then Ok true else materials_loop state materials rest
  end.

Definition heuristic (state : State) : result num :=
  too_many ← tools_loop state tools;
  if too_many : bool then Ok Inf
  else
    too_much ← materials_loop state materials_with_heuristic_value
                 (keys materials_with_heuristic_value);
    if too_much : bool then Ok Inf else Ok (Fin 0).

(** ** The frontier

    An entry of the frontier is the tuple (priority, state, action); the action
    of the start entry is None. *)

Definition entry : Type := num * State * option string.

Definition entry_state (e : entry) : State := e.1.2.

(* '<' on the last components: two strings, or two None (equal, so not
   smaller); None against a string cannot be ordered *)
Definition action_lt (a b : option string) : result bool :=
  match a, b with
  | None, None => Ok false
  | Some x, Some y => Ok (bool_decide (String.compare x y = Lt))
  | _, _ => Raise TypeError
  end.

(* tuple '<': the first component on which the tuples differ decides *)
Definition entry_lt (a b : entry) : result bool :=
  let '(pa, sa, aa) := a in
  let '(pb, sb, ab) := b in
  if decide (pa = pb) then
    if decide (sa = sb) then action_lt aa ab else Ok (State_lt sa sb)
  else Ok (num_ltb pa pb).

(** heapq keeps the list arranged as a binary heap.  Only its contract is
    modelled: the list holds the entries pushed and not yet popped, and
    heappop removes the least of them, or raises IndexError on an empty list.
    The entries of the frontier always carry pairwise distinct states (lemma
    [frontier_states_distinct]), so the least entry is unique and no
    comparison reaches the actions. *)

Fixpoint least (best : entry) (rest : list entry) : result entry :=
  match rest with
  | [] => Ok best
  | e :: rest' =>
      smaller ← entry_lt e best;
      least (if smaller : bool then e else best) rest'
  end.

Fixpoint remove_first (x : entry) (l : list entry) : list entry :=
  match l with
  | [] => []
  | e :: rest => if decide (e = x) then rest else e :: remove_first x rest
  end.

Definition heappop (heap : list entry) : result (entry * list entry) :=
  match heap with
  | [] => Raise IndexError
  | e :: rest => m ← least e rest; Ok (m, remove_first m heap)
  end.

Definition heappush (heap : list entry) (item : entry) : list entry :=
  heap ++ [item].

(** ** search *)

(* The local variables of search that live across iterations.  [pushed] is a
   ghost variable: every entry ever placed in the frontier, oldest first.  The
   program keeps no such list and nothing below reads it. *)
Record locals := {
  queue : list entry;
  cost : gmap State num;
  prev : gmap State (option State);
  actions : gmap State (option string);
  visited : list State;
  pushed : list entry
}.

Definition initial (state : State) : locals :=
  {| queue := [(Fin 0, state, None)];
     cost := {[state := Fin 0]};
     prev := {[state := None]};
     actions := {[state := None]};
     visited := [state];
     pushed := [(Fin 0, state, None)] |}.

Definition set_queue (l : locals) (q : list entry) : locals :=
  {| queue := q; cost := cost l; prev := prev l; actions := actions l;
     visited := visited l; pushed := pushed l |}.

Definition plan : Type := list (State * option string).

(* How a call of search ends.  [Unfinished]: the fuel given to the model ran
   out before the call ended. *)
Inductive outcome :=
  | Plan (path : plan)
  | NoPlan                  (* return None *)
  | Raised (e : exn)
  | Unfinished.

(* (node_state not in cost or new_cost < cost[node_state])
   and node_state not in visited *)
Definition admissible (new_cost : num) (node_state : State) (l : locals) : bool :=
  match cost l !! node_state with
  | None => true
  | Some old_cost => num_ltb new_cost old_cost
  end && negb (bool_decide (node_state ∈ visited l)).

(* The body of the if statement.  The program calls the heuristic and adds
   after it has written cost, actions and visited; when either raises, search
   is left and its locals are lost, so the order cannot be observed. *)
Definition accept (heuristic : State → result num) (current_state : State)
  (new_cost : num) (node_action : string) (node_state : State) (l : locals)
  : result locals :=
  h ← heuristic node_state;
  priority ← num_add new_cost h;
  Ok {| cost := <[node_state := new_cost]> (cost l);
        actions := <[node_state := Some node_action]> (actions l);
        visited := visited l ++ [node_state];
        queue := heappush (queue l) (priority, node_state, Some node_action);
        pushed := pushed l ++ [(priority, node_state, Some node_action)];
        prev := <[node_state := Some current_state]> (prev l) |}.

(* for node_action, node_state, node_cost in <yields>: ... *)
Fixpoint relax (heuristic : State → result num) (current_cost : num)
  (current_state : State) (yields : list triple) (l : locals) : result locals :=
  match yields with
  | [] => Ok l
  | (node_action, node_state, node_cost) :: rest =>
      new_cost ← num_add current_cost (Fin node_cost);
      l' ← (if admissible new_cost node_state l
            then accept heuristic current_state new_cost node_action node_state l
            else Ok l);
      relax heuristic current_cost current_state rest l'
  end.

(* the whole for statement, over what the generator does *)
Definition for_each (heuristic : State → result num) (current_cost : num)
  (current_state : State) (g : list triple * option exn) (l : locals)
  : result locals :=
  l' ← relax heuristic current_cost current_state g.1 l;
  match g.2 with
  | Some e => Raise e
  | None => Ok l'
  end.

(* while current_back_node is not None:
       path.insert(0, (current_back_node, actions[current_back_node]))
       current_back_node = prev[current_back_node] *)
Fixpoint walk_back (fuel : nat) (l : locals) (current_back_node : option State)
  (path : plan) : outcome :=
  match current_back_node with
  | None => Plan path
  | Some node =>
      match fuel with
      | O => Unfinished
      | S fuel' =>
          match actions l !! node with
          | None => Raised (KeyErrorState node)
          | Some a =>
              match prev l !! node with
              | None => Raised (KeyErrorState node)
              | Some back => walk_back fuel' l back ((node, a) :: path)
              end
          end
      end
  end.

(* One pass through the body of the while loop. *)
Inductive iteration :=
  | Continue (l : locals)
  | Break (o : outcome) (l : locals).

Section search.
(* elapsed n: the float time() - start_time at the n-th test of the loop
   condition, n = 1, 2, ... *)
Variable elapsed : nat → Q.
Variable graph : State → list triple * option exn.
Variable is_goal : State → result bool.
Variable limit : Q.
Variable heuristic : State → result num.

(* The walk back to the start is given as many steps as visited has states:
   prev is written only for a state that is being appended to visited, and
   points to a state appended before it, so the walk of a run never needs
   more (lemma [trail_walk]). *)
Definition body (l : locals) : iteration :=
  match heappop (queue l) with
  | Raise e => Break (Raised e) l
  | Ok ((current_cost, current_state, current_action), rest) =>
      let l := set_queue l rest in
      match is_goal current_state with
      | Raise e => Break (Raised e) l
      | Ok true =>
          match prev l !! current_state with
          | None => Break (Raised (KeyErrorState current_state)) l
          | Some back =>
              Break (walk_back (length (visited l)) l back
                       [(current_state, current_action)]) l
          end
      | Ok false =>
          match for_each heuristic current_cost current_state
                  (graph current_state) l with
          | Raise e => Break (Raised e) l
          | Ok l' => Continue l'
          end
      end
  end.

(* time() - start_time < limit, at the test number n *)
Definition in_time (n : nat) : bool :=
  negb (Qle_bool limit (elapsed n)).

(* The while loop.  [fuel] bounds the number of iterations, [n] numbers the
   coming deadline check.  The result is how the call ends and the locals at
   that point.  A loop left by break has built a non-empty path, which is
   returned; a loop left by its condition has path = [] and returns None. *)
Fixpoint loop (fuel : nat) (n : nat) (l : locals) : outcome * locals :=
  if in_time n then
    match fuel with
    | O => (Unfinished, l)
    | S fuel' =>
        match body l with
        | Continue l' => loop fuel' (S n) l'
        | Break o l' => (o, l')
        end
    end
  else (NoPlan, l).

Definition search_run (state : State) (fuel : nat) : outcome * locals :=
  loop fuel 1%nat (initial state).

Definition search (state : State) (fuel : nat) : outcome :=
  (search_run state fuel).1.

(* the locals at the head of the loop, after any number of iterations *)
Inductive reachable (state : State) : locals → Prop :=
  | reach_initial : reachable state (initial state)
  | reach_iteration l l' :
      reachable state l → body l = Continue l' → reachable state l'.
End search.

(** ** The specification's wording, for comparison with the code *)

Definition rule_consumes (rule : Rule) : list (string * Z) :=
  default [] (Consumes rule).

Definition rule_requires (rule : Rule) : list (string * bool) :=
  default [] (Requires rule).

(* every item a rule mentions *)
Definition rule_items (rule : Rule) : list string :=
  keys (rule_requires rule) ++ keys (rule_consumes rule) ++ keys (Produces rule).

(* a state over the catalog: exactly the catalog's items, in its order *)
Definition over_catalog (catalog : list string) (state : State) : Prop :=
  keys state = catalog.

Definition nonnegative (state : State) : Prop :=
  Forall (λ kv, 0 ≤ kv.2) state.

(* "for every (item, amount) in Consumes, state[item] ≥ amount, AND for every
   item in Requires, state[item] > 0"; an absent clause has nothing to check *)
Definition precondition_spec (rule : Rule) (state : State) : Prop :=
  (∀ consumes, Consumes rule = Some consumes →
     ∀ item amount, (item, amount) ∈ consumes →
       ∃ q, getitem state item = Ok q ∧ amount ≤ q) ∧
  (∀ requires, Requires rule = Some requires →
     ∀ item v, (item, v) ∈ requires →
       ∃ q, getitem state item = Ok q ∧ 0 < q).

(** ** Concrete inputs *)

(* Scenario A of the specification *)
Definition craft_plank : Rule :=
  {| Requires := None;
     Consumes := Some [("wood", 1)];
     Produces := [("plank", 4)];
     Time := 1 |}.

Definition catalog_A : list string := ["wood"; "plank"].
Definition start_A : State := [("wood", 1); ("plank", 0)].
Definition final_A : State := [("wood", 0); ("plank", 4)].
Definition goal_A : list (string * Z) := [("plank", 4)].
Definition recipes_A : list Recipe.t := [compile "craft_plank" craft_plank].

#[global] Instance exn_eq_dec : EqDecision exn.
Proof. solve_decision. Defined.

#[global] Instance result_eq_dec `{EqDecision A} : EqDecision (result A).
Proof. solve_decision. Defined.

(* a recipe whose precondition and, where it holds, whose effect come back
   without raising on [state] *)
Definition evaluates (state : State) (r : Recipe.t) : Prop :=
  ∃ b, Recipe.check r state = Ok b ∧
       (b = true → ∃ next_state, Recipe.effect r state = Ok next_state).

(* "for each compiled recipe, in its declared order, includes one triple iff
   that recipe's precondition holds for state": the recipes that pass, in
   order, each paired with its triple *)
Definition expansion_of (all_recipes : list Recipe.t) (state : State)
  (yields : list triple) : Prop :=
  Forall2 (λ r y, Recipe.effect r state = Ok y.1.2 ∧
                  y = (Recipe.name r, y.1.2, Recipe.cost r))
          (filter (λ r, Recipe.check r state = Ok true) all_recipes) yields.

(* the items the heuristic looks up, and its condition for pruning *)
Definition heuristic_items : list string :=
  ["furnace"; "bench"; "wooden_pickaxe"; "wooden_axe"; "stone_pickaxe";
   "stone_axe"; "iron_pickaxe"; "iron_axe";
   "coal"; "cobble"; "wood"; "plank"; "stick"; "ore"; "ingot"].

Definition over_accumulated (state : State) : Prop :=
  (∃ tool q,
     tool ∈ ["furnace"; "bench"; "wooden_pickaxe"; "wooden_axe";
             "stone_pickaxe"; "stone_axe"; "iron_pickaxe"; "iron_axe"] ∧
     getitem state tool = Ok q ∧ 1 < q) ∨
  (∃ material cap q,
     (material, cap) ∈ [("coal", 1); ("cobble", 8); ("wood", 1); ("plank", 8);
                        ("stick", 4); ("ore", 1); ("ingot", 6)] ∧
     getitem state material = Ok q ∧ cap < q).

(** ** Points of a run of search *)

Section points.
Variable graph : State → list triple * option exn.
Variable is_goal : State → result bool.
Variable heuristic : State → result num.

(* the locals in the middle of the for loop of some iteration, after any
   number of the neighbours yielded by the generator have been handled *)
Definition inside (state : State) (l' : locals) : Prop :=
  ∃ l current_cost current_state current_action rest handled,
    reachable graph is_goal heuristic state l ∧
    heappop (queue l)
      = Ok ((current_cost, current_state, current_action), rest) ∧
    is_goal current_state = Ok false ∧
    handled `prefix_of` (graph current_state).1 ∧
    relax heuristic current_cost current_state handled (set_queue l rest)
      = Ok l'.

(* any point of the run at which the admission test can be evaluated or the
   frontier looked at *)
Definition occurs (state : State) (l : locals) : Prop :=
  reachable graph is_goal heuristic state l ∨ inside state l.
End points.

(* what the bookkeeping satisfies at every such point *)
Definition consistent (l : locals) : Prop :=
  visited l = entry_state <$> pushed l ∧
  NoDup (visited l) ∧
  queue l ⊆+ pushed l.

(* a run in which the n-th test of the loop condition finds n/1024 s, about
   n milliseconds, elapsed; the values are floats *)
Definition ms_clock (n : nat) : Q := Z.of_nat n # 1024.

(* a run in which the n-th test finds n/2^20 s, about n microseconds,
   elapsed *)
Definition us_clock (n : nat) : Q := Z.of_nat n # 1048576.

(* a heuristic that never prunes *)
Definition zero_heuristic (state : State) : result num := Ok (Fin 0).

(* Scenario A after the first iteration of the loop *)
Definition after_one_A : locals :=
  match body (graph recipes_A) (make_goal_checker goal_A) zero_heuristic
          (initial start_A) with
  | Continue l => l
  | Break _ l => l
  end.

(* An inventory over the items of the heuristic, and the first recipe of the
   game: wood for four time units, from nothing *)
Definition punch_for_wood : Rule :=
  {| Requires := None; Consumes := None; Produces := [("wood", 1)]; Time := 4 |}.

Definition recipes_W : list Recipe.t := [compile "punch for wood" punch_for_wood].
Definition with_wood (n : Z) : State :=
  setitem (zip heuristic_items (replicate 15 0)) "wood" n.
Definition goal_W : list (string * Z) := [("wood", 3)].

(* Scenario B of the specification: an empty inventory and planks as the only
   recipe, so that no plank can ever be made *)
Definition goal_B : list (string * Z) := [("plank", 1)].

(** ** graph on references

    The generator as the interpreter runs it on the recipes compiled from
    Crafting['Recipes']: check reads the State that [state] refers to, effect
    allocates the State it returns. *)

Definition compile_all (rules : list (string * Rule)) : list Recipe.t :=
  (λ nr, compile nr.1 nr.2) <$> rules.

Fixpoint graph_obj (rules : list (string * Rule)) (state : positive) (h : heap)
  : list (string * positive * Z) * option exn * heap :=
  match rules with
  | [] => ([], None, h)
  | (name, rule) :: rest =>
      match make_checker rule (h !!! state) with
      | Raise e => ([], Some e, h)
      | Ok false => graph_obj rest state h
      | Ok true =>
          match effect_obj rule state h with
          | Raise e => ([], Some e, h)
          | Ok (next_state, h') =>
              let '(yields, ending, h'') := graph_obj rest state h' in
              ((name, next_state, Time rule) :: yields, ending, h'')
          end
      end
  end.

(* a yielded triple with the State its reference points to *)
Definition deref (h : heap) (y : string * positive * Z) : triple :=
  (y.1.1, h !!! y.1.2, y.2).

(* a rule as the loader delivers it: over the catalog, with dictionaries
   (no key twice) for Produces and Consumes *)
Definition well_formed (catalog : list string) (rule : Rule) : Prop :=
  rule_items rule ⊆ catalog ∧
  NoDup (keys (Produces rule)) ∧
  NoDup (keys (rule_consumes rule)).

(* how the priority of an entry ever put in the frontier relates to the cost
   map: the start entry carries the cost of the start state, every other
   entry the cost of its state plus the heuristic of that state *)
Definition priced (heuristic : State → result num) (state : State)
  (l : locals) : Prop :=
  state ∈ visited l ∧
  ∀ p s a, (p, s, a) ∈ pushed l →
    ∃ c, cost l !! s = Some c ∧
         ((s = state ∧ p = c) ∨
          (∃ h, heuristic s = Ok h ∧ num_add c h = Ok p)).

(** ** Plans *)

Section plans.
Variable graph : State → list triple * option exn.
Variable is_goal : State → result bool.
Variable state : State.

(* [chain path s]: [path] starts at the start state with no action and every
   further pair (s', a) is reached from the state before it by an edge that
   the generator yields under the name a; [s] is its last state *)
Inductive chain : plan → State → Prop :=
  | chain_start : chain [(state, None)] state
  | chain_step path p a s c :
      chain path p → (a, s, c) ∈ (graph p).1 →
      chain (path ++ [(s, Some a)]) s.

(* a complete plan: a chain from the start to a state that satisfies the goal *)
Definition complete (path : plan) : Prop :=
  ∃ s, chain path s ∧ is_goal s = Ok true.

(* [trail l s path]: following prev and actions back from [s] passes through
   the states of [path], last to first, and ends at the start state *)
Inductive trail (l : locals) : State → plan → Prop :=
  | trail_start :
      prev l !! state = Some None → actions l !! state = Some None →
      trail l state [(state, None)]
  | trail_step s p a c path :
      prev l !! s = Some (Some p) → actions l !! s = Some (Some a) →
      (a, s, c) ∈ (graph p).1 →
      trail l p path →
      trail l s (path ++ [(s, Some a)]).

(* every visited state has a trail no longer than its position in visited
   allows, through visited states only, met in the order in which they were
   visited; and the action of every entry is the one recorded for its state *)
Definition tracked (l : locals) : Prop :=
  (∀ i s, visited l !! i = Some s →
     ∃ path, trail l s path ∧ (length path ≤ S i)%nat ∧
             (∀ x, x ∈ path.*1 → x ∈ visited l) ∧
             path.*1 `sublist_of` take (S i) (visited l)) ∧
  (∀ p s a, (p, s, a) ∈ pushed l → actions l !! s = Some a).
End plans.

(* the three dictionaries of search have the visited states as their keys *)
Definition recorded (l : locals) : Prop :=
  ∀ s, (is_Some (cost l !! s) ↔ s ∈ visited l) ∧
       (is_Some (prev l !! s) ↔ s ∈ visited l) ∧
       (is_Some (actions l !! s) ↔ s ∈ visited l).

(* an exception that search passes on from one of its arguments: from the goal
   test or the generator called on a visited state, or from the heuristic
   called on a neighbour that the generator yields for a visited state *)
Definition passed_on (graph : State → list triple * option exn)
  (is_goal : State → result bool) (heuristic : State → result num)
  (l : locals) (e : exn) : Prop :=
  (∃ s, s ∈ visited l ∧ (is_goal s = Raise e ∨ (graph s).2 = Some e)) ∨
  (∃ s a s' c, s ∈ visited l ∧ (a, s', c) ∈ (graph s).1 ∧
               heuristic s' = Raise e).

(** ** __main__ *)

(* dict.update, also used by the constructor State(d): one item assignment
   for each pair of the argument, in order *)
Definition update (state : State) (other : list (string * Z)) : State :=
  foldl (λ s kv, setitem s kv.1 kv.2) state other.

(* what the program reads from Crafting.json *)
Record Crafting := {
  Items : list string;
  Initial : list (string * Z);
  Goal : list (string * Z);
  Recipes : list (string * Rule)
}.

(* state = State({key: 0 for key in Crafting['Items']})
   state.update(Crafting['Initial']) *)
Definition initial_state (c : Crafting) : State :=
  update (update [] (update [] ((λ key, (key, 0)) <$> Items c))) (Initial c).

(* resulting_plan = search(graph, state, is_goal, 30, heuristic), with
   all_recipes, is_goal and state built as in __main__ *)
Definition main (elapsed : nat → Q) (c : Crafting) (fuel : nat) : outcome :=
  search elapsed (graph (compile_all (Recipes c))) (make_goal_checker (Goal c))
    30 heuristic (initial_state c) fuel.

(* a Crafting file that fits the program: a catalog without repetition that
   has the items of the heuristic, and an initial inventory, a goal and rules
   over the catalog *)
Definition fits (c : Crafting) : Prop :=
  NoDup (Items c) ∧
  heuristic_items ⊆ Items c ∧
  keys (Initial c) ⊆ Items c ∧ NoDup (keys (Initial c)) ∧
  keys (Goal c) ⊆ Items c ∧
  Forall (λ nr, well_formed (Items c) nr.2) (Recipes c).

(* the file of the last scenario: the items of the heuristic, one piece of
   wood, planks wanted *)
Definition crafting_W : Crafting :=
  {| Items := heuristic_items;
     Initial := [("wood", 1)];
     Goal := [("plank", 4)];
     Recipes := [("punch for wood", punch_for_wood);
                 ("craft_plank", craft_plank)] |}.

(* no negative quantity in the initial inventory and none produced by a rule *)
Definition sound_amounts (c : Crafting) : Prop :=
  Forall (λ kv, 0 ≤ kv.2) (Initial c) ∧
  Forall (λ nr, Forall (λ kv, 0 ≤ kv.2) (Produces nr.2)) (Recipes c).

(* a file with one rule, whose Time is the int 2^1024, beyond the floats, and
   which gives two pieces of wood, more than the heuristic allows *)
Definition chop : Rule :=
  {| Requires := None;
     Consumes := None;
     Produces := [("wood", 2)];
     Time := 2 ^ 1024 |}.

Definition crafting_O : Crafting :=
  {| Items := heuristic_items;
     Initial := [];
     Goal := [("plank", 1)];
     Recipes := [("chop", chop)] |}.

(** ** The statements of the loop that change the frontier or the visited list

    One step is the heappop of line 157, or one pass through the body of the
    for statement (lines 168-175) for one neighbour; the popped entry and the
    neighbour may be any.  [later] relates a point of a run to the points that
    any number of such steps lead to. *)

Inductive step (heuristic : State → result num) : locals → locals → Prop :=
  | step_pop l e rest :
      heappop (queue l) = Ok (e, rest) → step heuristic l (set_queue l rest)
  | step_neighbour l l' current_cost current_state node :
      relax heuristic current_cost current_state [node] l = Ok l' →
      step heuristic l l'.

Definition later (heuristic : State → result num) : locals → locals → Prop :=
  rtc (step heuristic).

(** * Properties *)

(** ** Lookups in a State *)

Lemma Ok_bind {A B} (a : A) (f : A → result B) : Ok a ≫= f = f a.
Proof. done. Qed.

Lemma Raise_bind {A B} (e : exn) (f : A → result B) : Raise e ≫= f = Raise e.
Proof. done. Qed.

Lemma bind_Ok {A B} (m : result A) (f : A → result B) (b : B) :
  m ≫= f = Ok b ↔ ∃ a, m = Ok a ∧ f a = Ok b.
Proof.
  destruct m as [a|e]; simpl.
  - split; [eauto | intros (a' & [= <-] & ?); done].
  - split; [done | intros (a' & [=] & _)].
Qed.

Lemma accept_Ok heuristic current_state new_cost node_action node_state l l' :
  accept heuristic current_state new_cost node_action node_state l = Ok l' ↔
  ∃ h priority,
    heuristic node_state = Ok h ∧ num_add new_cost h = Ok priority ∧
    l' = {| cost := <[node_state := new_cost]> (cost l);
            actions := <[node_state := Some node_action]> (actions l);
            visited := visited l ++ [node_state];
            queue := heappush (queue l) (priority, node_state, Some node_action);
            pushed := pushed l ++ [(priority, node_state, Some node_action)];
            prev := <[node_state := Some current_state]> (prev l) |}.
Proof.
  unfold accept. rewrite bind_Ok. split.
  - intros (h & Hh & (priority & Hp & [= <-])%bind_Ok). by exists h, priority.
  - intros (h & priority & Hh & Hp & ->). exists h. split; [done|].
    by rewrite Hp.
Qed.

Lemma getitem_Ok_elem (state : State) item q :
  getitem state item = Ok q → (item, q) ∈ state.
Proof.
  induction state as [|[k v] rest IH]; simpl; [done|].
  case_decide as Hk.
  - intros [= <-]. subst k. left.
  - intros H. right. auto.
Qed.

Lemma getitem_covered (state : State) item :
  item ∈ keys state → ∃ q, getitem state item = Ok q.
Proof.
  unfold keys. induction state as [|[k v] rest IH]; simpl.
  - intros H. inversion H.
  - intros H. case_decide as Hk; [eauto|].
    apply IH. inversion H; simplify_eq/=; done.
Qed.

Lemma getitem_Ok_covered (state : State) item q :
  getitem state item = Ok q → item ∈ keys state.
Proof.
  intros H%getitem_Ok_elem. unfold keys.
  apply list_elem_of_fmap. by exists (item, q).
Qed.

Lemma getitem_nonneg (state : State) item q :
  Forall (λ kv, 0 ≤ kv.2) state → getitem state item = Ok q → 0 ≤ q.
Proof.
  intros Hall H%getitem_Ok_elem.
  rewrite Forall_forall in Hall. by apply (Hall (item, q)).
Qed.

(** ** make_checker *)

Lemma check_consumes_true (state : State) consumes :
  check_consumes state consumes = Ok true ↔
  ∀ item amount, (item, amount) ∈ consumes →
    ∃ q, getitem state item = Ok q ∧ amount ≤ q.
Proof.
  induction consumes as [|[item value] rest IH]; simpl.
  - split; [|done]. intros _ ? ? H. inversion H.
  - rewrite bind_Ok. split.
    + intros (q & Hq & Hrest) item' amount' Hin.
      destruct (Z.ltb_spec q value); [done|].
      apply elem_of_cons in Hin as [[= -> ->]|Hin].
      * exists q. split; [done | lia].
      * by apply IH.
    + intros H. destruct (H item value) as (q & Hq & Hge); [left|].
      exists q. split; [done|].
      destruct (Z.ltb_spec q value); [lia|].
      apply IH. intros ? ? ?. apply H. by right.
Qed.

Lemma check_consumes_total (state : State) consumes :
  keys consumes ⊆ keys state → ∃ b, check_consumes state consumes = Ok b.
Proof.
  induction consumes as [|[item value] rest IH]; simpl; intros Hsub; [eauto|].
  destruct (getitem_covered state item) as [q ->]; [apply Hsub; left|]. simpl.
  destruct (q <? value); [eauto|].
  apply IH. intros k Hk. apply Hsub. by right.
Qed.

Lemma check_requires_true (state : State) requires :
  nonnegative state →
  check_requires state requires = Ok true ↔
  ∀ item (v : bool), (item, v) ∈ requires →
    ∃ q, getitem state item = Ok q ∧ 0 < q.
Proof.
  intros Hpos. induction requires as [|[item value] rest IH]; simpl.
  - split; [|done]. intros _ ? ? H. inversion H.
  - rewrite bind_Ok. split.
    + intros (q & Hq & Hrest) item' v' Hin.
      destruct (Z.eqb_spec q 0); [done|].
      apply elem_of_cons in Hin as [[= -> ->]|Hin].
      * exists q. split; [done|].
        pose proof (getitem_nonneg _ _ _ Hpos Hq). lia.
      * by eapply IH.
    + intros H. destruct (H item value) as (q & Hq & Hgt); [left|].
      exists q. split; [done|].
      destruct (Z.eqb_spec q 0); [lia|].
      apply IH. intros ? ? ?. eapply H. by right.
Qed.

Lemma check_requires_total (state : State) requires :
  keys requires ⊆ keys state → ∃ b, check_requires state requires = Ok b.
Proof.
  induction requires as [|[item value] rest IH]; simpl; intros Hsub; [eauto|].
  destruct (getitem_covered state item) as [q ->]; [apply Hsub; left|]. simpl.
  destruct (q =? 0); [eauto|].
  apply IH. intros k Hk. apply Hsub. by right.
Qed.

Lemma make_checker_true (rule : Rule) (state : State) :
  nonnegative state →
  make_checker rule state = Ok true ↔ precondition_spec rule state.
Proof.
  intros Hpos. unfold make_checker, precondition_spec.
  rewrite bind_Ok. split.
  - intros ([] & Hc & Hr); [|done]. split.
    + intros consumes Hsome. rewrite Hsome in Hc. by apply check_consumes_true.
    + intros requires Hsome. rewrite Hsome in Hr. by apply check_requires_true.
  - intros [Hc Hr]. exists true. split.
    + destruct (Consumes rule) as [consumes|]; [|done].
      apply check_consumes_true. by apply Hc.
    + destruct (Requires rule) as [requires|]; [|done].
      apply check_requires_true; [done|]. by apply Hr.
Qed.

Lemma make_checker_total (rule : Rule) (state : State) :
  rule_items rule ⊆ keys state → ∃ b, make_checker rule state = Ok b.
Proof.
  unfold rule_items, rule_consumes, rule_requires, make_checker. intros Hsub.
  assert (∃ b, match Consumes rule with
               | Some consumes => check_consumes state consumes
               | None => Ok true
               end = Ok b) as [b ->].
  { destruct (Consumes rule) as [consumes|]; [|eauto].
    apply check_consumes_total. intros k Hk. apply Hsub. simpl.
    rewrite !elem_of_app. auto. }
  simpl. destruct b; [|eauto].
  destruct (Requires rule) as [requires|]; [|eauto].
  apply check_requires_total. intros k Hk. apply Hsub. simpl.
  rewrite !elem_of_app. auto.
Qed.

(** C5.  For a rule whose items belong to the catalog and a state over the
    catalog with non-negative quantities, the compiled precondition returns a
    boolean, and it is True exactly when state[item] ≥ amount for every
    (item, amount) of Consumes and state[item] > 0 for every item of
    Requires; a missing clause asks for nothing. *)
Theorem make_checker_spec (catalog : list string) (rule : Rule) (state : State) :
  over_catalog catalog state →
  rule_items rule ⊆ catalog →
  nonnegative state →
  ∃ b, make_checker rule state = Ok b ∧ (b = true ↔ precondition_spec rule state).
Proof.
  intros Hover Hitems Hpos. unfold over_catalog in Hover. subst catalog.
  destruct (make_checker_total rule state Hitems) as [b Hb].
  exists b. split; [done|].
  rewrite <- (make_checker_true rule state Hpos), Hb.
  split; [by intros ->|by intros [= ->]].
Qed.

Lemma make_checker_spec_witness :
  ∃ b, make_checker craft_plank start_A = Ok b ∧
       (b = true ↔ precondition_spec craft_plank start_A).
Proof.
  apply (make_checker_spec catalog_A).
  - reflexivity.
  - by apply (bool_decide_unpack _).
  - by apply (bool_decide_unpack _).
Defined.

(** ** Writing into a State *)

Lemma getitem_setitem_eq (state : State) item value :
  getitem (setitem state item value) item = Ok value.
Proof.
  induction state as [|[k v] rest IH]; simpl.
  - by rewrite decide_True.
  - case_decide as Hk; simpl; [by rewrite decide_True | by rewrite decide_False].
Qed.

Lemma getitem_setitem_ne (state : State) item other value :
  item ≠ other → getitem (setitem state item value) other = getitem state other.
Proof.
  intros Hne. induction state as [|[k v] rest IH]; simpl.
  - by rewrite decide_False.
  - case_decide as Hk; simpl.
    + subst k. rewrite !decide_False; done.
    + by rewrite IH.
Qed.

Lemma keys_setitem_old (state : State) item value :
  item ∈ keys state → keys (setitem state item value) = keys state.
Proof.
  unfold keys. induction state as [|[k v] rest IH]; simpl; intros Hin.
  - inversion Hin.
  - case_decide as Hk; simpl; [by subst k|].
    f_equal. apply IH. apply elem_of_cons in Hin as [?|?]; [congruence|done].
Qed.

Lemma setitem_new (state : State) item value :
  item ∉ keys state → setitem state item value = state ++ [(item, value)].
Proof.
  unfold keys. induction state as [|[k v] rest IH]; simpl; intros Hnin; [done|].
  apply not_elem_of_cons in Hnin as [Hne Hnin].
  rewrite decide_False by congruence. by rewrite IH.
Qed.

(* copying a dictionary keeps its pairs and their order *)
Lemma State_copy_id (state : State) :
  NoDup (keys state) → State_copy state = state.
Proof.
  unfold State_copy.
  enough (∀ acc : State, NoDup (keys (acc ++ state)) →
            foldl (λ new_state kv, setitem new_state kv.1 kv.2) acc state
            = acc ++ state) as H by apply (H []).
  induction state as [|[k v] rest IH]; intros acc Hnd; simpl.
  - by rewrite app_nil_r.
  - rewrite setitem_new.
    + rewrite (cons_middle (k, v) acc rest), (assoc_L (++)) in Hnd |- *.
      by apply IH.
    + unfold keys in *. rewrite fmap_app in Hnd.
      apply NoDup_app in Hnd as (_ & Hdisj & _).
      intros Hin. apply (Hdisj k Hin). left.
Qed.

Lemma iadd_spec (state : State) item value q :
  getitem state item = Ok q →
  ∃ s, iadd state item value = Ok s ∧ keys s = keys state ∧
       getitem s item = Ok (q + value) ∧
       ∀ other, item ≠ other → getitem s other = getitem state other.
Proof.
  intros Hq. unfold iadd. rewrite Hq. simpl. eexists. split; [done|].
  split; [|split].
  - apply keys_setitem_old. by eapply getitem_Ok_covered.
  - apply getitem_setitem_eq.
  - intros other Hne. by apply getitem_setitem_ne.
Qed.

Lemma dict_get_absent (d : list (string * Z)) item default :
  item ∉ keys d → dict_get d item default = default.
Proof.
  unfold keys. induction d as [|[k v] rest IH]; simpl; intros Hnin; [done|].
  apply not_elem_of_cons in Hnin as [Hne Hnin].
  rewrite decide_False by congruence. auto.
Qed.

(** ** make_effector *)

Lemma produce_spec (produces : list (string * Z)) :
  ∀ state : State,
  keys produces ⊆ keys state →
  NoDup (keys produces) →
  ∃ s, produce state produces = Ok s ∧ keys s = keys state ∧
       ∀ i q, getitem state i = Ok q →
              getitem s i = Ok (q + dict_get produces i 0).
Proof.
  induction produces as [|[item value] rest IH]; intros state Hsub Hnd; simpl.
  - exists state. split; [done|]. split; [done|].
    intros i q ->. simpl. f_equal. lia.
  - destruct (getitem_covered state item) as [q0 Hq0]; [apply Hsub; left|].
    destruct (iadd_spec state item value q0 Hq0) as (s1 & -> & Hk1 & Hhit & Hmiss).
    simpl. unfold keys in Hnd. simpl in Hnd. apply NoDup_cons in Hnd as [Hfresh Hnd].
    destruct (IH s1) as (s & -> & Hk & Hget); [| done |].
    { rewrite Hk1. intros k Hk. apply Hsub. by right. }
    exists s. split; [done|]. split; [congruence|].
    intros i q Hq. case_decide as Hi.
    + subst i. rewrite (Hget item (q0 + value) Hhit).
      rewrite dict_get_absent by done.
      assert (q = q0) as -> by congruence. f_equal. lia.
    + apply Hget. rewrite Hmiss; done.
Qed.

Lemma isub_iadd (state : State) item value :
  isub state item value = iadd state item (- value).
Proof. done. Qed.

Lemma consume_spec (consumes : list (string * Z)) :
  ∀ state : State,
  keys consumes ⊆ keys state →
  NoDup (keys consumes) →
  ∃ s, consume state consumes = Ok s ∧ keys s = keys state ∧
       ∀ i q, getitem state i = Ok q →
              getitem s i = Ok (q - dict_get consumes i 0).
Proof.
  induction consumes as [|[item value] rest IH]; intros state Hsub Hnd; simpl.
  - exists state. split; [done|]. split; [done|].
    intros i q ->. simpl. f_equal. lia.
  - destruct (getitem_covered state item) as [q0 Hq0]; [apply Hsub; left|].
    rewrite isub_iadd.
    destruct (iadd_spec state item (- value) q0 Hq0)
      as (s1 & -> & Hk1 & Hhit & Hmiss).
    simpl. unfold keys in Hnd. simpl in Hnd. apply NoDup_cons in Hnd as [Hfresh Hnd].
    destruct (IH s1) as (s & -> & Hk & Hget); [| done |].
    { rewrite Hk1. intros k Hk. apply Hsub. by right. }
    exists s. split; [done|]. split; [congruence|].
    intros i q Hq. case_decide as Hi.
    + subst i. rewrite (Hget item (q0 + - value) Hhit).
      rewrite dict_get_absent by done.
      assert (q = q0) as -> by congruence. f_equal. lia.
    + apply Hget. rewrite Hmiss; done.
Qed.

(* The value produced by effect, item by item. *)
Lemma make_effector_spec (rule : Rule) (state : State) :
  NoDup (keys state) →
  keys (Produces rule) ++ keys (rule_consumes rule) ⊆ keys state →
  NoDup (keys (Produces rule)) →
  NoDup (keys (rule_consumes rule)) →
  ∃ s, make_effector rule state = Ok s ∧ keys s = keys state ∧
       ∀ i q, getitem state i = Ok q →
              getitem s i = Ok (q + dict_get (Produces rule) i 0
                                  - dict_get (rule_consumes rule) i 0).
Proof.
  intros Hnd Hsub HndP HndC. unfold make_effector, rule_consumes in *.
  rewrite State_copy_id by done.
  destruct (produce_spec (Produces rule) state) as (s1 & -> & Hk1 & Hget1);
    [intros k Hk; apply Hsub, elem_of_app; by left | done |].
  simpl. destruct (Consumes rule) as [consumes|]; simpl in *.
  - destruct (consume_spec consumes s1) as (s & -> & Hk & Hget); [| done |].
    { rewrite Hk1. intros k Hk. apply Hsub, elem_of_app. by right. }
    exists s. split; [done|]. split; [congruence|].
    intros i q Hq. by apply Hget, Hget1.
  - exists s1. split; [done|]. split; [done|].
    intros i q Hq. rewrite (Hget1 i q Hq). f_equal. lia.
Qed.

(** ** effect on references *)

Lemma produce_obj_value (next_state : positive) (produces : list (string * Z)) :
  ∀ (h : heap) (s : State),
  h !! next_state = Some s →
  produce_obj next_state produces h
  = (s' ← produce s produces; Ok (<[next_state := s']> h)).
Proof.
  induction produces as [|[item value] rest IH]; intros h s Hs; simpl.
  - by rewrite insert_id.
  - unfold iadd_obj. rewrite (lookup_total_correct _ _ _ Hs).
    destruct (iadd s item value) as [s1|e]; simpl; [|done].
    rewrite (IH _ s1) by apply lookup_insert_eq.
    destruct (produce s1 rest) as [s2|e]; simpl; [|done].
    by rewrite insert_insert_eq.
Qed.

Lemma consume_obj_value (next_state : positive) (consumes : list (string * Z)) :
  ∀ (h : heap) (s : State),
  h !! next_state = Some s →
  consume_obj next_state consumes h
  = (s' ← consume s consumes; Ok (<[next_state := s']> h)).
Proof.
  induction consumes as [|[item value] rest IH]; intros h s Hs; simpl.
  - by rewrite insert_id.
  - unfold isub_obj. rewrite (lookup_total_correct _ _ _ Hs).
    destruct (isub s item value) as [s1|e]; simpl; [|done].
    rewrite (IH _ s1) by apply lookup_insert_eq.
    destruct (consume s1 rest) as [s2|e]; simpl; [|done].
    by rewrite insert_insert_eq.
Qed.

(* effect allocates one State, writes only into it, and leaves there the
   value computed by [make_effector] *)
Lemma effect_obj_value (rule : Rule) (state : positive) (h : heap) (s : State) :
  h !! state = Some s →
  effect_obj rule state h
  = (s' ← make_effector rule s;
     Ok (fresh (dom h), <[fresh (dom h) := s']> h)).
Proof.
  intros Hs. unfold effect_obj, State_copy_obj, make_effector.
  rewrite (lookup_total_correct _ _ _ Hs).
  rewrite (produce_obj_value _ _ _ (State_copy s)) by apply lookup_insert_eq.
  destruct (produce (State_copy s) (Produces rule)) as [s1|e]; simpl; [|done].
  rewrite insert_insert_eq.
  destruct (Consumes rule) as [consumes|]; simpl; [|done].
  rewrite (consume_obj_value _ _ _ s1) by apply lookup_insert_eq.
  destruct (consume s1 consumes) as [s2|e]; simpl; [|done].
  by rewrite insert_insert_eq.
Qed.

(** C4.  Let R be a rule whose items belong to the catalog, with Produces P
    and Consumes C, and let [state] refer to a State S over the catalog on
    which R's precondition holds.  Then effect returns a reference to a new
    State S' with S'[i] = S[i] + P.get(i, 0) − C.get(i, 0) for every item i of
    the catalog and with the keys of S in the same order, and every State that
    existed before the call, S included, is unchanged. *)
Theorem effect_obj_spec (catalog : list string) (rule : Rule)
    (state : positive) (h : heap) (S : State) :
  NoDup catalog →
  h !! state = Some S →
  over_catalog catalog S →
  rule_items rule ⊆ catalog →
  NoDup (keys (Produces rule)) →
  NoDup (keys (rule_consumes rule)) →
  make_checker rule S = Ok true →
  ∃ (next_state : positive) (h' : heap) (S' : State),
    effect_obj rule state h = Ok (next_state, h') ∧
    make_effector rule S = Ok S' ∧
    h !! next_state = None ∧
    h' !! next_state = Some S' ∧
    (∀ other, other ≠ next_state → h' !! other = h !! other) ∧
    h' !! state = Some S ∧
    keys S' = keys S ∧
    ∀ i, i ∈ catalog →
      ∃ q, getitem S i = Ok q ∧
           getitem S' i = Ok (q + dict_get (Produces rule) i 0
                                - dict_get (rule_consumes rule) i 0).
Proof.
  intros Hcat HS Hover Hitems HndP HndC _.
  unfold over_catalog in Hover. subst catalog.
  destruct (make_effector_spec rule S) as (S' & HS' & Hkeys & Hget); [done| |done|done|].
  { intros k Hk. apply Hitems. unfold rule_items. rewrite !elem_of_app in *. tauto. }
  assert (h !! fresh (dom h) = None) as Hnew by apply not_elem_of_dom, is_fresh.
  exists (fresh (dom h)), (<[fresh (dom h) := S']> h), S'.
  split; [by rewrite (effect_obj_value _ _ _ _ HS), HS'|].
  split; [done|]. split; [done|]. split; [apply lookup_insert_eq|].
  split; [by intros other Hne; apply lookup_insert_ne|].
  split; [rewrite lookup_insert_ne; [done | congruence]|].
  split; [done|].
  intros i Hi. destruct (getitem_covered S i Hi) as [q Hq]. eauto.
Qed.

Lemma effect_obj_spec_witness :
  ∃ (next_state : positive) (h' : heap) (S' : State),
    effect_obj craft_plank 1 {[1%positive := start_A]} = Ok (next_state, h') ∧
    make_effector craft_plank start_A = Ok S' ∧
    ({[1%positive := start_A]} : heap) !! next_state = None ∧
    h' !! next_state = Some S' ∧
    (∀ other, other ≠ next_state →
       h' !! other = ({[1%positive := start_A]} : heap) !! other) ∧
    h' !! 1%positive = Some start_A ∧
    keys S' = keys start_A ∧
    ∀ i, i ∈ catalog_A →
      ∃ q, getitem start_A i = Ok q ∧
           getitem S' i = Ok (q + dict_get (Produces craft_plank) i 0
                                - dict_get (rule_consumes craft_plank) i 0).
Proof.
  apply (effect_obj_spec catalog_A).
  - by apply (bool_decide_unpack _).
  - reflexivity.
  - reflexivity.
  - by apply (bool_decide_unpack _).
  - by apply (bool_decide_unpack _).
  - by apply (bool_decide_unpack _).
  - reflexivity.
Defined.

(** ** graph *)

Lemma graph_yields (all_recipes : list Recipe.t) (state : State) :
  Forall (evaluates state) all_recipes →
  ∃ yields, graph all_recipes state = (yields, None) ∧
            expansion_of all_recipes state yields ∧
            (length yields ≤ length all_recipes)%nat.
Proof.
  unfold expansion_of.
  induction all_recipes as [|r rest IH]; intros Hall; simpl.
  - exists []. split; [done|]. split; [constructor | done].
  - apply Forall_cons in Hall as [(b & Hb & Heff) Hall].
    destruct (IH Hall) as (ys & Hys & Hspec & Hlen). rewrite Hb.
    destruct b.
    + destruct Heff as [next_state Hnext]; [done|]. rewrite Hnext, Hys.
      eexists. split; [done|]. rewrite filter_cons_True by done.
      split; [by constructor | simpl; lia].
    + exists ys. split; [done|]. rewrite filter_cons_False by congruence.
      split; [done | lia].
Qed.

(** ** heuristic *)

Lemma elem_getitem (d : list (string * Z)) k v :
  NoDup (keys d) → (k, v) ∈ d → getitem d k = Ok v.
Proof.
  unfold keys. induction d as [|[k' v'] rest IH]; simpl; intros Hnd Hin.
  - inversion Hin.
  - apply NoDup_cons in Hnd as [Hfresh Hnd].
    apply elem_of_cons in Hin as [[= -> ->]|Hin].
    + by rewrite decide_True.
    + rewrite decide_False; [by apply IH|].
      intros ->. apply Hfresh, list_elem_of_fmap. by exists (k, v).
Qed.

Lemma tools_loop_spec (state : State) (ts : list string) :
  ts ⊆ keys state →
  ∃ b, tools_loop state ts = Ok b ∧
       (b = true ↔ ∃ tool q, tool ∈ ts ∧ getitem state tool = Ok q ∧ 1 < q).
Proof.
  induction ts as [|tool rest IH]; intros Hsub; simpl.
  - exists false. split; [done|]. split; [done|].
    intros (? & ? & Hin & _). inversion Hin.
  - destruct (getitem_covered state tool) as [q Hq]; [apply Hsub; left|].
    rewrite Hq. simpl. destruct (Z.gtb_spec q 1) as [Hgt|Hle].
    + exists true. split; [done|]. split; [|done].
      intros _. exists tool, q. split; [left | done].
    + destruct IH as (b & -> & Hb); [intros k Hk; apply Hsub; by right|].
      exists b. split; [done|]. rewrite Hb. split.
      * intros (t & q' & Hin & Hrest). exists t, q'. split; [by right | done].
      * intros (t & q' & Hin & Hq' & Hgt).
        apply elem_of_cons in Hin as [->|Hin]; [|by eauto].
        assert (q' = q) as -> by congruence. lia.
Qed.

Lemma materials_loop_spec (state : State) (materials : list (string * Z))
    (ks : list string) :
  ks ⊆ keys state →
  ks ⊆ keys materials →
  ∃ b, materials_loop state materials ks = Ok b ∧
       (b = true ↔ ∃ material cap q,
                     material ∈ ks ∧ getitem materials material = Ok cap ∧
                     getitem state material = Ok q ∧ cap < q).
Proof.
  induction ks as [|material rest IH]; intros Hsub Hcaps; simpl.
  - exists false. split; [done|]. split; [done|].
    intros (? & ? & ? & Hin & _). inversion Hin.
  - destruct (getitem_covered state material) as [q Hq]; [apply Hsub; left|].
    destruct (getitem_covered materials material) as [cap Hcap];
      [apply Hcaps; left|].
    rewrite Hq. simpl. rewrite Hcap. simpl.
    destruct (Z.gtb_spec q cap) as [Hgt|Hle].
    + exists true. split; [done|]. split; [|done].
      intros _. exists material, cap, q. split; [left | done].
    + destruct IH as (b & -> & Hb);
        [intros k Hk; apply Hsub; by right
        |intros k Hk; apply Hcaps; by right|].
      exists b. split; [done|]. rewrite Hb. split.
      * intros (m & c & q' & Hin & Hrest). exists m, c, q'.
        split; [by right | done].
      * intros (m & c & q' & Hin & Hc & Hq' & Hgt).
        apply elem_of_cons in Hin as [->|Hin]; [|by eauto 8].
        assert (q' = q) as -> by congruence.
        assert (c = cap) as -> by congruence. lia.
Qed.

(** C7.  On a state that has the fifteen items the heuristic names, the
    heuristic returns inf exactly when a tool (furnace, bench, wooden, stone
    or iron pickaxe or axe) has quantity above 1 or a capped material is above
    its cap (coal 1, cobble 8, wood 1, plank 8, stick 4, ore 1, ingot 6), and
    returns 0 otherwise. *)
Theorem heuristic_spec (state : State) :
  heuristic_items ⊆ keys state →
  (heuristic state = Ok Inf ↔ over_accumulated state) ∧
  (¬ over_accumulated state → heuristic state = Ok (Fin 0)).
Proof.
  intros Hsub.
  destruct (tools_loop_spec state tools) as (b1 & Hb1 & Htools).
  { intros k Hk. apply Hsub. unfold heuristic_items.
    change (k ∈ tools ++ keys materials_with_heuristic_value).
    apply elem_of_app. by left. }
  destruct (materials_loop_spec state materials_with_heuristic_value
              (keys materials_with_heuristic_value)) as (b2 & Hb2 & Hmat);
    [|done|].
  { intros k Hk. apply Hsub.
    change (k ∈ tools ++ keys materials_with_heuristic_value).
    apply elem_of_app. by right. }
  assert (over_accumulated state ↔ b1 = true ∨ b2 = true) as Hover.
  { unfold over_accumulated. rewrite Htools, Hmat. apply or_iff_compat_l. split.
    - intros (m & cap & q & Hin & Hq & Hgt). exists m, cap, q.
      split; [|split; [|done]].
      + apply list_elem_of_fmap. by exists (m, cap).
      + apply elem_getitem; [by apply (bool_decide_unpack _) | done].
    - intros (m & cap & q & _ & Hcap & Hq & Hgt). exists m, cap, q.
      split; [|done]. by apply getitem_Ok_elem. }
  unfold heuristic. rewrite Hb1, Ok_bind, Hover.
  destruct b1; [split; [split; auto | intros []; auto]|].
  rewrite Hb2, Ok_bind.
  destruct b2; [split; [split; auto | intros []; auto]|].
  split; [|done]. split; [done | intros [|]; done].
Qed.

Lemma heuristic_spec_witness :
  (heuristic (zip heuristic_items (replicate 15 0)) = Ok Inf
     ↔ over_accumulated (zip heuristic_items (replicate 15 0))) ∧
  (¬ over_accumulated (zip heuristic_items (replicate 15 0)) →
   heuristic (zip heuristic_items (replicate 15 0)) = Ok (Fin 0)).
Proof.
  apply heuristic_spec. by apply (bool_decide_unpack _).
Defined.

(** ** The frontier and the visited list *)

Lemma admissible_visited (new_cost : num) (node_state : State) (l : locals) :
  node_state ∈ visited l → admissible new_cost node_state l = false.
Proof.
  intros Hin. unfold admissible. rewrite bool_decide_true by done.
  apply andb_false_r.
Qed.

Lemma admissible_fresh (new_cost : num) (node_state : State) (l : locals) :
  admissible new_cost node_state l = true → node_state ∉ visited l.
Proof.
  unfold admissible. intros [_ H]%andb_true_iff.
  apply negb_true_iff, bool_decide_eq_false in H. done.
Qed.

Lemma remove_first_sublist (x : entry) (l : list entry) :
  remove_first x l `sublist_of` l.
Proof.
  induction l as [|e rest IH]; simpl; [done|].
  case_decide; [by apply sublist_cons | by apply sublist_skip].
Qed.

Lemma heappop_rest (heap : list entry) (e : entry) (rest : list entry) :
  heappop heap = Ok (e, rest) → rest ⊆+ heap.
Proof.
  destruct heap as [|x heap']; [done|]. unfold heappop.
  rewrite bind_Ok. intros (m & _ & [= <- <-]).
  apply sublist_submseteq, (remove_first_sublist m (x :: heap')).
Qed.

Lemma consistent_initial (state : State) : consistent (initial state).
Proof.
  split; [done|]. split; [|done]. apply NoDup_singleton.
Qed.

Lemma consistent_set_queue (l : locals) (rest : list entry) :
  consistent l → rest ⊆+ queue l → consistent (set_queue l rest).
Proof.
  intros (Hv & Hnd & Hq) Hrest. split; [done|]. split; [done|].
  simpl. by etrans.
Qed.

Lemma consistent_accept heuristic current_state new_cost node_action node_state l l' :
  consistent l →
  node_state ∉ visited l →
  accept heuristic current_state new_cost node_action node_state l = Ok l' →
  consistent l'.
Proof.
  intros (Hv & Hnd & Hq) Hfresh. rewrite accept_Ok.
  intros (h & priority & _ & _ & ->). split; [|split]; simpl.
  - by rewrite fmap_app, Hv.
  - apply NoDup_app. split; [done|]. split; [|apply NoDup_singleton].
    intros s Hs ->%list_elem_of_singleton. done.
  - unfold heappush. by apply submseteq_app.
Qed.

Lemma consistent_relax heuristic current_cost current_state yields :
  ∀ l l', consistent l →
          relax heuristic current_cost current_state yields l = Ok l' →
          consistent l'.
Proof.
  induction yields as [|[[node_action node_state] node_cost] rest IH];
    intros l l' Hl; simpl.
  - by intros [= <-].
  - rewrite bind_Ok. intros (new_cost & _ & (l1 & Hstep & Hrest)%bind_Ok).
    apply (IH l1); [|done].
    destruct (admissible _ node_state l) eqn:Hadm.
    + eapply consistent_accept; [done | by eapply admissible_fresh | done].
    + by injection Hstep as <-.
Qed.

Lemma for_each_relax heuristic current_cost current_state g l l' :
  for_each heuristic current_cost current_state g l = Ok l' →
  relax heuristic current_cost current_state g.1 l = Ok l'.
Proof.
  unfold for_each. rewrite bind_Ok. intros (l1 & -> & H).
  by destruct g.2; simplify_eq.
Qed.

Lemma body_Continue graph is_goal heuristic l l' :
  body graph is_goal heuristic l = Continue l' →
  ∃ current_cost current_state current_action rest,
    heappop (queue l) = Ok ((current_cost, current_state, current_action), rest) ∧
    is_goal current_state = Ok false ∧
    for_each heuristic current_cost current_state (graph current_state)
      (set_queue l rest) = Ok l'.
Proof.
  unfold body.
  destruct (heappop (queue l)) as [[[[c s] a] rest]|]; [|done].
  destruct (is_goal s) as [[]|] eqn:Hgoal; [|..|done].
  - case_match; discriminate.
  - destruct (for_each _ _ _ _ _) eqn:Hfor; [|done].
    intros [= <-]. by exists c, s, a, rest.
Qed.

Lemma consistent_reachable graph is_goal heuristic state l :
  reachable graph is_goal heuristic state l → consistent l.
Proof.
  induction 1 as [|l l' _ IH Hbody]; [apply consistent_initial|].
  apply body_Continue in Hbody as (c & s & a & rest & Hpop & _ & Hfor).
  apply for_each_relax in Hfor.
  eapply consistent_relax; [|done].
  apply consistent_set_queue; [done | by eapply heappop_rest].
Qed.

Lemma consistent_occurs graph is_goal heuristic state l :
  occurs graph is_goal heuristic state l → consistent l.
Proof.
  intros [H|(l0 & c & s & a & rest & handled & H & Hpop & _ & _ & Hrelax)].
  - by eapply consistent_reachable.
  - eapply consistent_relax; [|done].
    apply consistent_set_queue;
      [by eapply consistent_reachable | by eapply heappop_rest].
Qed.

(* the states waiting in the frontier are pairwise distinct *)
Lemma frontier_states_distinct graph is_goal heuristic state l :
  occurs graph is_goal heuristic state l → NoDup (entry_state <$> queue l).
Proof.
  intros (Hv & Hnd & Hq)%consistent_occurs.
  apply (fmap_submseteq entry_state), submseteq_Permutation in Hq as [k Hk].
  rewrite Hv, Hk in Hnd. by apply NoDup_app in Hnd as [? _].
Qed.

(** ** The deadline *)

Lemma in_time_spec (elapsed : nat → Q) (limit : Q) (n : nat) :
  in_time elapsed limit n = true ↔ (elapsed n < limit)%Q.
Proof.
  unfold in_time. rewrite negb_true_iff, <- not_true_iff_false, Qle_bool_iff.
  split; [apply Qnot_le_lt | apply Qlt_not_le].
Qed.

Lemma in_time_false (elapsed : nat → Q) (limit : Q) (n : nat) :
  in_time elapsed limit n = false ↔ (limit <= elapsed n)%Q.
Proof. unfold in_time. by rewrite negb_false_iff, Qle_bool_iff. Qed.

Lemma out_of_time (elapsed : nat → Q) (limit : Q) :
  (limit <= 0)%Q → (0 <= elapsed 1%nat)%Q →
  in_time elapsed limit 1 = false.
Proof.
  intros Hlimit Hmono. apply in_time_false. by apply (Qle_trans _ 0).
Qed.

(** C9.  With a budget that is zero or negative, and a timer that does not
    run backwards, so that the elapsed time found by the first test of the
    loop condition is not negative, that test fails: search returns None at
    once, whatever the other arguments are, and its locals are as they were
    set up, with the start entry still in the frontier. *)
Theorem search_no_budget elapsed graph is_goal heuristic (limit : Q)
    (state : State) (fuel : nat) :
  (limit <= 0)%Q →
  (0 <= elapsed 1%nat)%Q →
  search elapsed graph is_goal limit heuristic state fuel = NoPlan ∧
  search_run elapsed graph is_goal limit heuristic state fuel
  = (NoPlan, initial state).
Proof.
  intros Hlimit Hmono. unfold search, search_run.
  assert (loop elapsed graph is_goal limit heuristic fuel 1 (initial state)
          = (NoPlan, initial state)) as ->; [|done].
  destruct fuel; simpl; by rewrite (out_of_time elapsed limit Hlimit Hmono).
Qed.

Lemma search_no_budget_witness :
  search ms_clock (graph recipes_A) (make_goal_checker goal_A) 0 heuristic
    start_A 10 = NoPlan ∧
  search_run ms_clock (graph recipes_A) (make_goal_checker goal_A) 0 heuristic
    start_A 10 = (NoPlan, initial start_A).
Proof.
  apply search_no_budget.
  - vm_compute. discriminate.
  - vm_compute. discriminate.
Defined.

(** ** The first iteration *)

Lemma heappop_singleton (e : entry) : heappop [e] = Ok (e, []).
Proof. unfold heappop. simpl. by rewrite decide_True. Qed.

Lemma body_goal_at_start graph is_goal heuristic (state : State) :
  is_goal state = Ok true →
  body graph is_goal heuristic (initial state)
  = Break (Plan [(state, None)]) (set_queue (initial state) []).
Proof.
  intros Hgoal. unfold body.
  change (queue (initial state)) with [(Fin 0, state, @None string)].
  rewrite heappop_singleton, Hgoal.
  change (prev (set_queue (initial state) []))
    with ({[state := None]} : gmap State (option State)).
  by rewrite lookup_singleton_eq.
Qed.

(** C10, with the condition on the budget made exact.  If the goal already
    holds for the start state and the elapsed time that the first test of the
    loop condition computes, the float time() - start_time, is below the
    budget, search returns [(start, None)].  The graph and the heuristic play
    no part: they may be any functions, failing ones included, and nothing is
    added to the frontier or to the visited list. *)
Theorem search_goal_at_start elapsed graph is_goal heuristic (limit : Q)
    (state : State) (fuel : nat) :
  is_goal state = Ok true →
  (elapsed 1%nat < limit)%Q →
  (1 ≤ fuel)%nat →
  search elapsed graph is_goal limit heuristic state fuel
  = Plan [(state, None)] ∧
  search_run elapsed graph is_goal limit heuristic state fuel
  = (Plan [(state, None)], set_queue (initial state) []).
Proof.
  intros Hgoal Htime%in_time_spec Hfuel. unfold search, search_run.
  assert (loop elapsed graph is_goal limit heuristic fuel 1 (initial state)
          = (Plan [(state, None)], set_queue (initial state) [])) as ->; [|done].
  destruct fuel as [|fuel]; [lia|].
  simpl. by rewrite Htime, body_goal_at_start.
Qed.

Lemma search_goal_at_start_witness :
  search ms_clock (graph recipes_A) (make_goal_checker goal_A) 30 heuristic
    final_A 1 = Plan [(final_A, None)] ∧
  search_run ms_clock (graph recipes_A) (make_goal_checker goal_A) 30 heuristic
    final_A 1 = (Plan [(final_A, None)], set_queue (initial final_A) []).
Proof.
  apply search_goal_at_start.
  - reflexivity.
  - reflexivity.
  - lia.
Defined.

(* C10 read with a budget that is merely positive.  A budget of 2^-24 s, about
   a sixteenth of a microsecond, is positive, but when the first test of the
   loop condition finds 2^-20 s elapsed the loop is never entered, although
   the start state is a goal. *)
Lemma search_goal_at_start_late :
  (0 < 1 # 16777216)%Q ∧
  make_goal_checker goal_A final_A = Ok true ∧
  search us_clock (graph recipes_A) (make_goal_checker goal_A) (1 # 16777216)
    heuristic final_A 10 = NoPlan.
Proof. split; [done|]. split; [done|]. vm_compute. reflexivity. Qed.

(** ** Admission *)

Lemma relax_cons_accept heuristic current_cost current_state node_action
    node_state node_cost rest l new_cost h priority :
  num_add current_cost (Fin node_cost) = Ok new_cost →
  admissible new_cost node_state l = true →
  heuristic node_state = Ok h →
  num_add new_cost h = Ok priority →
  relax heuristic current_cost current_state
    ((node_action, node_state, node_cost) :: rest) l
  = relax heuristic current_cost current_state rest
      {| cost := <[node_state := new_cost]> (cost l);
         actions := <[node_state := Some node_action]> (actions l);
         visited := visited l ++ [node_state];
         queue := queue l ++ [(priority, node_state, Some node_action)];
         pushed := pushed l ++ [(priority, node_state, Some node_action)];
         prev := <[node_state := Some current_state]> (prev l) |}.
Proof.
  intros Hnew Hadm Hh Hp. simpl. rewrite Hnew, Ok_bind, Hadm. unfold accept.
  by rewrite Hh, Ok_bind, Hp.
Qed.

Lemma relax_cons_skip heuristic current_cost current_state node_action
    node_state node_cost rest l new_cost :
  num_add current_cost (Fin node_cost) = Ok new_cost →
  admissible new_cost node_state l = false →
  relax heuristic current_cost current_state
    ((node_action, node_state, node_cost) :: rest) l
  = relax heuristic current_cost current_state rest l.
Proof. intros Hnew Hadm. simpl. by rewrite Hnew, Ok_bind, Hadm. Qed.

Lemma num_add_fits (x : Z) (v : num) :
  fits_float x = true → ∃ r, num_add (Fin x) v = Ok r.
Proof. intros Hx. destruct v; simpl; [by eauto|]. rewrite Hx. by eauto. Qed.

(** ** Scenario A *)

(** C8, for every heuristic defined on the final state.  Catalog
    {wood, plank}, the one recipe craft_plank (Consumes wood 1, Produces
    plank 4, Time 1), start {wood:1, plank:0}, goal {plank:4}, a heuristic
    that returns a number for {wood:0, plank:4}, and a budget above the
    elapsed time found by the first two tests of the loop condition: search
    returns
    [(start, None), ({wood:0, plank:4}, "craft_plank")], and the cost recorded
    for the final state is 1. *)
Theorem search_scenario_A elapsed (limit : Q) (h : State → result num)
    (v : num) (fuel : nat) :
  h final_A = Ok v →
  (elapsed 1%nat < limit)%Q →
  (elapsed 2%nat < limit)%Q →
  (2 ≤ fuel)%nat →
  ∃ l, search_run elapsed (graph recipes_A) (make_goal_checker goal_A) limit h
         start_A fuel
       = (Plan [(start_A, None); (final_A, Some "craft_plank")], l) ∧
       cost l !! final_A = Some (Fin 1) ∧
       visited l = [start_A; final_A].
Proof.
  intros Hh Ht1%in_time_spec Ht2%in_time_spec Hfuel.
  destruct fuel as [|[|fuel]]; [lia..|].
  destruct (num_add_fits 1 v) as [priority Hp]; [by vm_compute|].
  unfold search_run. cbn [loop]. rewrite Ht1.
  unfold body at 1.
  change (queue (initial start_A)) with [(Fin 0, start_A, @None string)].
  rewrite heappop_singleton.
  change (make_goal_checker goal_A start_A) with (@Ok bool false).
  change (graph recipes_A start_A)
    with ([("craft_plank", final_A, 1)] : list triple, @None exn).
  unfold for_each. cbn [fst snd].
  rewrite (relax_cons_accept _ _ _ _ _ _ _ _ (Fin 1) v priority) by done.
  cbn [relax mbind result_bind]. rewrite Ht2.
  unfold body. cbn [queue set_queue initial app].
  rewrite heappop_singleton.
  change (make_goal_checker goal_A final_A) with (@Ok bool true).
  cbn [prev set_queue initial visited actions cost app length].
  replace (({[final_A := Some start_A; start_A := None]}
            : gmap State (option State)) !! final_A)
    with (Some (Some start_A)) by (vm_compute; reflexivity).
  cbn [walk_back actions prev set_queue].
  replace (({[final_A := Some "craft_plank"; start_A := None]}
            : gmap State (option string)) !! start_A)
    with (Some (@None string)) by (vm_compute; reflexivity).
  replace (({[final_A := Some start_A; start_A := None]}
            : gmap State (option State)) !! start_A)
    with (Some (@None State)) by (vm_compute; reflexivity).
  eexists. split; [done|]. split; [|done].
  cbn [cost]. vm_compute. reflexivity.
Qed.

Lemma search_scenario_A_witness :
  ∃ l, search_run ms_clock (graph recipes_A) (make_goal_checker goal_A) 30
         zero_heuristic start_A 2
       = (Plan [(start_A, None); (final_A, Some "craft_plank")], l) ∧
       cost l !! final_A = Some (Fin 1) ∧
       visited l = [start_A; final_A].
Proof.
  apply (search_scenario_A ms_clock 30 zero_heuristic (Fin 0) 2).
  - reflexivity.
  - reflexivity.
  - reflexivity.
  - lia.
Defined.

(* C8 read with the heuristic of the program: it looks up 'furnace' in
   {wood:0, plank:4} when that state is put in the frontier, and the call ends
   with KeyError; no elapsed time, budget or fuel makes it return a plan. *)
Lemma search_scenario_A_own_heuristic :
  heuristic final_A = Raise (KeyError "furnace") ∧
  search ms_clock (graph recipes_A) (make_goal_checker goal_A) 30 heuristic
    start_A 10 = Raised (KeyError "furnace") ∧
  ∀ elapsed limit fuel path,
    search elapsed (graph recipes_A) (make_goal_checker goal_A) limit heuristic
      start_A fuel ≠ Plan path.
Proof.
  split; [done|]. split; [by vm_compute|].
  intros elapsed limit fuel path. unfold search, search_run.
  destruct fuel as [|fuel]; cbn [loop]; destruct (in_time elapsed limit 1); done.
Qed.

(** ** An empty frontier *)

Lemma body_empty_frontier graph is_goal heuristic (l : locals) :
  queue l = [] →
  body graph is_goal heuristic l = Break (Raised IndexError) l.
Proof. intros Hq. unfold body. by rewrite Hq. Qed.

(** C2.  Scenario B: an inventory with no wood, the recipe craft_plank alone
    and planks as the goal.  The first iteration pops the start state and
    finds no recipe to apply; the second, two milliseconds into a budget of
    thirty seconds, calls heappop on an empty list.  search ends with
    IndexError, not with None. *)
Theorem search_empty_frontier :
  graph recipes_A (with_wood 0) = ([], None) ∧
  search ms_clock (graph recipes_A) (make_goal_checker goal_B) 30 heuristic
    (with_wood 0) 10 = Raised IndexError.
Proof. split; [done|]. vm_compute. reflexivity. Qed.

(** ** The cost recorded for a neighbour *)

(** C1.  Punching for wood (4 time units) from an empty inventory, with three
    pieces of wood as the goal.  The state with two pieces is over the cap of
    the heuristic and is pushed with priority inf; when it is popped, that
    priority is what the loop calls current_cost, so its neighbour with three
    pieces is recorded with cost inf + 4 = inf, while the cost map holds 8 for
    the popped state and 8 + 4 = 12 would be the cumulative cost. *)
Theorem search_cost_after_pruned_state :
  (search_run ms_clock (graph recipes_W) (make_goal_checker goal_W) 30
     heuristic (with_wood 0) 10).1
  = Plan [(with_wood 0, None); (with_wood 1, Some "punch for wood");
          (with_wood 2, Some "punch for wood");
          (with_wood 3, Some "punch for wood")] ∧
  let l := (search_run ms_clock (graph recipes_W) (make_goal_checker goal_W) 30
              heuristic (with_wood 0) 10).2 in
  prev l !! with_wood 3 = Some (Some (with_wood 2)) ∧
  cost l !! with_wood 2 = Some (Fin 8) ∧
  cost l !! with_wood 3 = Some Inf ∧
  pushed l = [(Fin 0, with_wood 0, None);
              (Fin 4, with_wood 1, Some "punch for wood");
              (Inf, with_wood 2, Some "punch for wood");
              (Inf, with_wood 3, Some "punch for wood")].
Proof. vm_compute. repeat split; reflexivity. Qed.

(** ** graph on references *)

Lemma compiled_evaluates (catalog : list string) (S : State) name rule :
  NoDup catalog → over_catalog catalog S → well_formed catalog rule →
  evaluates S (compile name rule).
Proof.
  intros Hnd Hover (Hitems & HndP & HndC).
  unfold over_catalog in Hover. subst catalog.
  destruct (make_checker_total rule S Hitems) as [b Hb].
  exists b. split; [done|]. intros _.
  destruct (make_effector_spec rule S) as (S' & HS' & _); [done| |done|done|].
  { intros k Hk. apply Hitems. unfold rule_items. rewrite !elem_of_app in *. tauto. }
  by exists S'.
Qed.

(* the generator on references yields, reference by reference, the triples
   of [graph], and only adds States to the heap *)
Lemma graph_obj_value (rules : list (string * Rule)) (state : positive) (S : State) :
  ∀ h : heap,
  h !! state = Some S →
  ∃ yields ending (h' : heap),
    graph_obj rules state h = (yields, ending, h') ∧
    h ⊆ h' ∧
    graph (compile_all rules) S = (deref h' <$> yields, ending).
Proof.
  induction rules as [|[name rule] rest IH]; intros h HS; simpl.
  - by exists [], None, h.
  - rewrite (lookup_total_correct _ _ _ HS).
    destruct (make_checker rule S) as [[]|e]; [| |by exists [], (Some e), h].
    + rewrite (effect_obj_value _ _ _ _ HS).
      destruct (make_effector rule S) as [S'|e]; simpl;
        [|by exists [], (Some e), h].
      assert (h !! fresh (dom h) = None) as Hnew
        by apply not_elem_of_dom, is_fresh.
      destruct (IH (<[fresh (dom h) := S']> h))
        as (ys & ending & h' & -> & Hsub & ->).
      { rewrite lookup_insert_ne; [done | congruence]. }
      eexists _, ending, h'. split; [done|]. split.
      * etrans; [by apply insert_subseteq | done].
      * assert (h' !!! fresh (dom h) = S') as Hderef.
        { apply lookup_total_correct.
          eapply lookup_weaken; [apply lookup_insert_eq | done]. }
        simpl. unfold deref at 2. simpl. by rewrite Hderef.
    + by apply IH.
Qed.

(** C6.  For recipes compiled from well-formed rules and a State over the
    catalog, the generator ends normally after yielding, in the order of the
    recipes, one triple (name, effect applied to the state, cost) for each
    recipe whose precondition holds and none for the others; it yields at most
    as many triples as there are recipes; and run again on the same State it
    yields the same triples (new State objects with the same contents). *)
Theorem graph_spec (catalog : list string) (rules : list (string * Rule))
    (state : positive) (h : heap) (S : State) :
  NoDup catalog →
  over_catalog catalog S →
  Forall (λ nr, well_formed catalog nr.2) rules →
  h !! state = Some S →
  ∃ yields (h1 : heap) yields' (h2 : heap),
    graph_obj rules state h = (yields, None, h1) ∧
    graph (compile_all rules) S = (deref h1 <$> yields, None) ∧
    expansion_of (compile_all rules) S (deref h1 <$> yields) ∧
    (length yields ≤ length rules)%nat ∧
    h1 !! state = Some S ∧
    graph_obj rules state h1 = (yields', None, h2) ∧
    deref h2 <$> yields' = deref h1 <$> yields.
Proof.
  intros Hnd Hover Hwf HS.
  destruct (graph_yields (compile_all rules) S) as (vs & Hvs & Hexp & Hlen).
  { unfold compile_all. apply Forall_fmap. eapply Forall_impl; [done|].
    intros [name rule] Hrule. simpl. by eapply compiled_evaluates. }
  destruct (graph_obj_value rules state S h HS)
    as (ys & ending & h1 & Hys & Hsub & Hgraph).
  assert (h1 !! state = Some S) as HS1 by by eapply lookup_weaken.
  destruct (graph_obj_value rules state S h1 HS1)
    as (ys' & ending' & h2 & Hys' & Hsub' & Hgraph').
  rewrite Hvs in Hgraph, Hgraph'.
  injection Hgraph as -> <-. injection Hgraph' as Hsame <-.
  exists ys, h1, ys', h2. split; [done|]. split; [done|]. split; [done|].
  split; [|done].
  unfold compile_all in Hlen. by rewrite !length_fmap in Hlen.
Qed.

Lemma graph_spec_witness :
  ∃ yields (h1 : heap) yields' (h2 : heap),
    graph_obj [("craft_plank", craft_plank)] 1 {[1%positive := start_A]}
      = (yields, None, h1) ∧
    graph (compile_all [("craft_plank", craft_plank)]) start_A
      = (deref h1 <$> yields, None) ∧
    expansion_of (compile_all [("craft_plank", craft_plank)]) start_A
      (deref h1 <$> yields) ∧
    (length yields ≤ length [("craft_plank", craft_plank)])%nat ∧
    h1 !! 1%positive = Some start_A ∧
    graph_obj [("craft_plank", craft_plank)] 1 h1 = (yields', None, h2) ∧
    deref h2 <$> yields' = deref h1 <$> yields.
Proof.
  apply (graph_spec catalog_A).
  - by apply (bool_decide_unpack _).
  - reflexivity.
  - apply Forall_cons. split; [|by apply Forall_nil].
    unfold well_formed. simpl.
    split; [|split]; by apply (bool_decide_unpack _).
  - reflexivity.
Defined.

(** ** heappop during a search

    Because the states in the frontier are pairwise distinct, every comparison
    made to find the least entry is decided by the priorities or by the
    states: heappop can only fail on an empty frontier, and it returns one of
    the entries and leaves the others. *)

Lemma entry_lt_distinct (a b : entry) :
  entry_state a ≠ entry_state b → ∃ r, entry_lt a b = Ok r.
Proof.
  destruct a as [[pa sa] aa], b as [[pb sb] ab]. unfold entry_lt, entry_state.
  simpl. intros Hne. repeat case_decide; by eauto.
Qed.

Lemma least_total (rest : list entry) :
  ∀ best, NoDup (entry_state <$> best :: rest) →
          ∃ m, least best rest = Ok m ∧ m ∈ best :: rest.
Proof.
  induction rest as [|e rest IH]; intros best Hnd; simpl.
  - exists best. split; [done | left].
  - rewrite !fmap_cons in Hnd.
    apply NoDup_cons in Hnd as [Hbest Hnd].
    pose proof Hnd as [He Hrest]%NoDup_cons.
    destruct (entry_lt_distinct e best) as [smaller ->].
    { intros Heq. apply Hbest. rewrite Heq. left. }
    simpl. destruct smaller.
    + destruct (IH e) as (m & -> & Hm); [by rewrite fmap_cons|].
      exists m. split; [done|]. by right.
    + destruct (IH best) as (m & -> & Hm).
      { rewrite fmap_cons. apply NoDup_cons. split; [|done].
        intros Hin. apply Hbest. by right. }
      exists m. split; [done|].
      apply elem_of_cons in Hm as [->|Hm]; [left | by do 2 right].
Qed.

Lemma remove_first_perm (m : entry) (l : list entry) :
  m ∈ l → l ≡ₚ m :: remove_first m l.
Proof.
  induction l as [|e rest IH]; intros Hin; [by inversion Hin|]. simpl.
  case_decide as He; [by subst e|].
  apply elem_of_cons in Hin as [->|Hin]; [done|].
  rewrite (IH Hin) at 1. apply perm_swap.
Qed.

Lemma heappop_occurs graph is_goal heuristic (state : State) (l : locals) :
  occurs graph is_goal heuristic state l →
  (queue l = [] ∧ heappop (queue l) = Raise IndexError) ∨
  (∃ e rest, heappop (queue l) = Ok (e, rest) ∧ queue l ≡ₚ e :: rest).
Proof.
  intros Hnd%frontier_states_distinct.
  destruct (queue l) as [|x rest] eqn:Hq; [by left|]. right.
  destruct (least_total rest x Hnd) as (m & Hm & Hin).
  exists m, (remove_first m (x :: rest)). unfold heappop. rewrite Hm.
  split; [done|]. by apply remove_first_perm.
Qed.

(* with time left and nothing in the frontier, the call ends in IndexError *)
Lemma loop_empty_frontier elapsed graph is_goal heuristic (limit : Q)
    (fuel n : nat) (l : locals) :
  queue l = [] →
  (elapsed n < limit)%Q →
  loop elapsed graph is_goal limit heuristic (S fuel) n l
  = (Raised IndexError, l).
Proof.
  intros Hq Htime%in_time_spec. simpl.
  by rewrite Htime, body_empty_frontier.
Qed.

(** ** What the loop calls current_cost

    The first component of a popped entry is the priority it was pushed with.
    Except for the start entry this is the recorded cost of the state plus its
    heuristic, and [relax] adds the step cost to that sum. *)

Lemma priced_initial heuristic (state : State) : priced heuristic state (initial state).
Proof.
  split; [left|]. intros p s a [= -> -> ->]%list_elem_of_singleton.
  exists (Fin 0). split; [apply lookup_singleton_eq | by left].
Qed.

Lemma priced_accept heuristic state current_state new_cost node_action node_state l l' :
  consistent l → priced heuristic state l →
  node_state ∉ visited l →
  accept heuristic current_state new_cost node_action node_state l = Ok l' →
  priced heuristic state l'.
Proof.
  intros (Hv & _ & _) [Hstart Hpriced] Hfresh.
  rewrite accept_Ok. intros (h & priority & Hh & Hprio & ->). split; simpl.
  - apply elem_of_app. by left.
  - intros p s a [Hold|[= -> -> ->]%list_elem_of_singleton]%elem_of_app.
    + destruct (Hpriced p s a Hold) as (c & Hc & Hp).
      exists c. split; [|done]. rewrite lookup_insert_ne; [done|].
      intros ->. apply Hfresh. rewrite Hv.
      apply list_elem_of_fmap. by exists (p, s, a).
    + exists new_cost. split; [apply lookup_insert_eq | right; eauto].
Qed.

Lemma priced_relax heuristic state current_cost current_state yields :
  ∀ l l', consistent l → priced heuristic state l →
          relax heuristic current_cost current_state yields l = Ok l' →
          priced heuristic state l'.
Proof.
  induction yields as [|[[node_action node_state] node_cost] rest IH];
    intros l l' Hl Hp; simpl.
  - by intros [= <-].
  - rewrite bind_Ok. intros (new_cost & _ & (l1 & Hstep & Hrest)%bind_Ok).
    destruct (admissible _ node_state l) eqn:Hadm.
    + apply (IH l1); [| |done].
      * eapply consistent_accept; [done | by eapply admissible_fresh | done].
      * eapply priced_accept; [done | done | by eapply admissible_fresh | done].
    + injection Hstep as <-. by apply (IH l).
Qed.

Lemma priced_reachable graph is_goal heuristic state l :
  reachable graph is_goal heuristic state l → priced heuristic state l.
Proof.
  induction 1 as [|l l' Hreach IH Hbody]; [apply priced_initial|].
  apply body_Continue in Hbody as (c & s & a & rest & Hpop & _ & Hfor).
  apply for_each_relax in Hfor.
  eapply priced_relax; [| |done].
  - apply consistent_set_queue;
      [by eapply consistent_reachable | by eapply heappop_rest].
  - done.
Qed.

Lemma heappop_elem (heap : list entry) (e : entry) (rest : list entry) :
  NoDup (entry_state <$> heap) → heappop heap = Ok (e, rest) → e ∈ heap.
Proof.
  destruct heap as [|x heap']; [done|]. intros Hnd. unfold heappop.
  destruct (least_total heap' x Hnd) as (m & -> & Hm). by intros [= <- _].
Qed.

(** X12.  When an entry is popped at the head of an iteration, its first
    component, which the loop calls current_cost, is the cost recorded for its
    state plus the heuristic of that state; for the entry of the start state
    it is the recorded cost itself. *)
Lemma popped_priority graph is_goal heuristic (state : State) (l : locals)
    current_cost current_state current_action rest :
  reachable graph is_goal heuristic state l →
  heappop (queue l) = Ok ((current_cost, current_state, current_action), rest) →
  ∃ c, cost l !! current_state = Some c ∧
       ((current_state = state ∧ current_cost = c) ∨
        (∃ h, heuristic current_state = Ok h ∧
              num_add c h = Ok current_cost)).
Proof.
  intros Hreach Hpop.
  destruct (priced_reachable _ _ _ _ _ Hreach) as [_ Hpriced].
  apply (Hpriced current_cost current_state current_action).
  destruct (consistent_reachable _ _ _ _ _ Hreach) as (_ & _ & Hq).
  eapply elem_of_submseteq; [|done].
  eapply heappop_elem; [|done].
  eapply frontier_states_distinct. by left.
Qed.

(** ** The predecessor chains

    Following prev and actions back from a visited state leads to the start
    state in fewer steps than there are visited states. *)

Section outcome.
Variable elapsed : nat → Q.
Variable graph : State → list triple * option exn.
Variable is_goal : State → result bool.
Variable limit : Q.
Variable heuristic : State → result num.
Variable state : State.

Lemma trail_chain (l : locals) s path :
  trail graph state l s path → chain graph state path s.
Proof. induction 1; [constructor | by econstructor]. Qed.

Lemma walk_back_trail (l : locals) s path :
  trail graph state l s path →
  ∀ suffix fuel, (length path ≤ fuel)%nat →
    walk_back fuel l (Some s) suffix = Plan (path ++ suffix).
Proof.
  induction 1 as [Hprev Hact|s p a c path Hprev Hact _ _ IH];
    intros suffix fuel Hfuel.
  - destruct fuel as [|fuel]; [simpl in Hfuel; lia|].
    simpl. rewrite Hact, Hprev. by destruct fuel.
  - rewrite length_app in Hfuel. simpl in Hfuel.
    destruct fuel as [|fuel]; [lia|].
    simpl. rewrite Hact, Hprev, IH by lia. by rewrite <- (assoc_L (++)).
Qed.

Lemma walk_back_set_queue (l : locals) rest fuel :
  ∀ back path,
    walk_back fuel (set_queue l rest) back path = walk_back fuel l back path.
Proof.
  induction fuel as [|fuel IH]; intros [node|] path; simpl; try done.
  destruct (actions l !! node); [|done].
  destruct (prev l !! node); [apply IH | done].
Qed.

Lemma trail_walk (l : locals) s a path fuel :
  trail graph state l s path →
  actions l !! s = Some a →
  match prev l !! s with
  | Some back =>
      (length path ≤ S fuel)%nat → walk_back fuel l back [(s, a)] = Plan path
  | None => False
  end.
Proof.
  intros Htrail. destruct Htrail as [Hprev Hact|s p a' c path Hprev Hact _ Hp];
    rewrite Hprev, Hact; intros [= <-].
  - intros _. by destruct fuel.
  - rewrite length_app. simpl. intros Hlen.
    apply (walk_back_trail l p path Hp). lia.
Qed.

Lemma trail_mono (l l' : locals) s path :
  trail graph state l s path →
  (∀ x, x ∈ path.*1 →
        prev l' !! x = prev l !! x ∧ actions l' !! x = actions l !! x) →
  trail graph state l' s path.
Proof.
  induction 1 as [Hprev Hact|s p a c path Hprev Hact Hedge _ IH]; intros Hsame.
  - destruct (Hsame state) as [Hp Ha]; [left|].
    apply trail_start; congruence.
  - destruct (Hsame s) as [Hp Ha].
    { rewrite fmap_app. apply elem_of_app. right. left. }
    apply (trail_step graph state l' s p a c path);
      [by rewrite Hp | by rewrite Ha | done |].
    apply IH. intros x Hx. apply Hsame. rewrite fmap_app. apply elem_of_app.
    by left.
Qed.

Lemma tracked_initial : tracked graph state (initial state).
Proof.
  split.
  - intros i s Hi. apply list_lookup_singleton_Some in Hi as [-> <-].
    exists [(state, None)]. split; [|split; [simpl; lia | done]].
    apply trail_start; apply lookup_singleton_eq.
  - intros p s a [= -> -> ->]%list_elem_of_singleton. apply lookup_singleton_eq.
Qed.

Lemma tracked_set_queue (l : locals) rest :
  tracked graph state l → tracked graph state (set_queue l rest).
Proof.
  intros [Htrail Hact]. split; [|done].
  intros i s Hi. destruct (Htrail i s Hi) as (path & Hpath & Hlen & Hvis & Hsub).
  exists path. split; [|done]. by eapply trail_mono.
Qed.

Lemma tracked_accept current_state new_cost node_action node_state node_cost l l' :
  consistent l → tracked graph state l →
  current_state ∈ visited l →
  node_state ∉ visited l →
  (node_action, node_state, node_cost) ∈ (graph current_state).1 →
  accept heuristic current_state new_cost node_action node_state l = Ok l' →
  tracked graph state l'.
Proof.
  intros (Hv & _ & _) [Htrail Hact] Hcur Hfresh Hedge.
  rewrite accept_Ok. intros (h & priority & _ & _ & ->).
  assert (∀ path s,
            trail graph state l s path → (∀ x, x ∈ path.*1 → x ∈ visited l) →
            trail graph state
              {| queue := heappush (queue l)
                            (priority, node_state, Some node_action);
                 cost := <[node_state := new_cost]> (cost l);
                 prev := <[node_state := Some current_state]> (prev l);
                 actions := <[node_state := Some node_action]> (actions l);
                 visited := visited l ++ [node_state];
                 pushed := pushed l ++
                             [(priority, node_state, Some node_action)]
              |} s path) as Hkeep.
  { intros path s Hpath Hvis. eapply trail_mono; [done|].
    intros x Hx. simpl.
    rewrite !lookup_insert_ne; [done|intros ->; by apply Hfresh, Hvis..]. }
  split; simpl.
  - intros i s [Hi|[Hi Hnew]]%lookup_app_Some.
    + destruct (Htrail i s Hi) as (path & Hpath & Hlen & Hvis & Hsub).
      exists path. split; [by apply Hkeep|]. split; [done|]. split.
      * intros x Hx. apply elem_of_app. left. by apply Hvis.
      * apply lookup_lt_Some in Hi. by rewrite take_app_le by lia.
    + apply list_lookup_singleton_Some in Hnew as [Hzero <-].
      apply list_elem_of_lookup in Hcur as [j Hj].
      pose proof (lookup_lt_Some _ _ _ Hj) as Hjlen.
      destruct (Htrail j current_state Hj) as (path & Hpath & Hlen & Hvis & Hsub).
      exists (path ++ [(node_state, Some node_action)]).
      split; [|split; [|split]].
      * eapply trail_step; [apply lookup_insert_eq | apply lookup_insert_eq
                           | done | by apply Hkeep].
      * rewrite length_app. simpl. lia.
      * intros x. rewrite fmap_app. simpl.
        intros [Hx|Hx]%elem_of_app; apply elem_of_app; [left; by apply Hvis|].
        by right.
      * rewrite take_ge by (rewrite length_app; simpl; lia).
        rewrite fmap_app. apply sublist_app; [|done].
        etrans; [done | apply sublist_take].
  - intros p s a [Hold|[= -> -> ->]%list_elem_of_singleton]%elem_of_app.
    + rewrite lookup_insert_ne; [by eapply Hact|].
      intros ->. apply Hfresh. rewrite Hv.
      apply list_elem_of_fmap. by exists (p, s, a).
    + apply lookup_insert_eq.
Qed.

Lemma accept_visited current_state new_cost node_action node_state l l' x :
  accept heuristic current_state new_cost node_action node_state l = Ok l' →
  x ∈ visited l → x ∈ visited l'.
Proof.
  rewrite accept_Ok. intros (h & priority & _ & _ & ->) Hx. simpl.
  apply elem_of_app. by left.
Qed.

Lemma tracked_relax current_cost current_state yields :
  ∀ l l', consistent l → tracked graph state l →
          current_state ∈ visited l →
          yields ⊆ (graph current_state).1 →
          relax heuristic current_cost current_state yields l = Ok l' →
          tracked graph state l'.
Proof.
  induction yields as [|[[node_action node_state] node_cost] rest IH];
    intros l l' Hl Ht Hcur Hsub; simpl.
  - by intros [= <-].
  - rewrite bind_Ok. intros (new_cost & _ & (l1 & Hstep & Hrest)%bind_Ok).
    assert (rest ⊆ (graph current_state).1) as Hsub'
      by (intros y Hy; apply Hsub; by right).
    destruct (admissible _ node_state l) eqn:Hadm.
    + apply admissible_fresh in Hadm. apply (IH l1); [| | |done|done].
      * by eapply consistent_accept.
      * eapply tracked_accept; [done..| |done]. apply Hsub. left.
      * by eapply accept_visited.
    + injection Hstep as <-. by apply (IH l).
Qed.

Lemma popped_visited (l : locals) e rest :
  reachable graph is_goal heuristic state l →
  heappop (queue l) = Ok (e, rest) →
  e ∈ pushed l ∧ entry_state e ∈ visited l.
Proof.
  intros Hreach Hpop.
  destruct (consistent_reachable _ _ _ _ _ Hreach) as (Hv & _ & Hq).
  assert (e ∈ pushed l) as He.
  { eapply elem_of_submseteq; [|done]. eapply heappop_elem; [|done].
    eapply frontier_states_distinct. by left. }
  split; [done|]. rewrite Hv. apply list_elem_of_fmap. by exists e.
Qed.

Lemma tracked_reachable (l : locals) :
  reachable graph is_goal heuristic state l → tracked graph state l.
Proof.
  induction 1 as [|l l' Hreach IH Hbody]; [apply tracked_initial|].
  apply body_Continue in Hbody as (c & s & a & rest & Hpop & _ & Hfor).
  apply for_each_relax in Hfor.
  destruct (popped_visited _ _ _ Hreach Hpop) as [_ Hvis].
  eapply tracked_relax; [| | |done|done].
  - apply consistent_set_queue;
      [by eapply consistent_reachable | by eapply heappop_rest].
  - by apply tracked_set_queue.
  - done.
Qed.

End outcome.

(** * Further properties of the recipe compiler *)

(** ** Missing items *)

Lemma getitem_Raise (state : State) item e :
  getitem state item = Raise e → e = KeyError item ∧ item ∉ keys state.
Proof.
  unfold keys. induction state as [|[k v] rest IH]; simpl.
  - intros [= <-]. split; [done|]. apply not_elem_of_nil.
  - case_decide as Hk; [done|]. intros [-> Hnin]%IH.
    split; [done|]. apply not_elem_of_cons. split; [congruence | done].
Qed.

Lemma check_consumes_Raise (state : State) consumes e :
  check_consumes state consumes = Raise e →
  ∃ k, e = KeyError k ∧ k ∈ keys consumes ∧ k ∉ keys state.
Proof.
  induction consumes as [|[item value] rest IH]; simpl; [done|].
  destruct (getitem state item) as [q|e'] eqn:Hq; simpl.
  - destruct (q <? value); [done|]. intros (k & -> & Hin & Hnin)%IH.
    exists k. split; [done|]. split; [by right | done].
  - intros [= <-]. apply getitem_Raise in Hq as [-> Hnin].
    exists item. split; [done|]. split; [left | done].
Qed.

Lemma check_requires_Raise (state : State) requires e :
  check_requires state requires = Raise e →
  ∃ k, e = KeyError k ∧ k ∈ keys requires ∧ k ∉ keys state.
Proof.
  induction requires as [|[item value] rest IH]; simpl; [done|].
  destruct (getitem state item) as [q|e'] eqn:Hq; simpl.
  - destruct (q =? 0); [done|]. intros (k & -> & Hin & Hnin)%IH.
    exists k. split; [done|]. split; [by right | done].
  - intros [= <-]. apply getitem_Raise in Hq as [-> Hnin].
    exists item. split; [done|]. split; [left | done].
Qed.

(** X1.  The only way the compiled precondition can fail is a KeyError for an
    item of the rule's Consumes or Requires that the state does not have. *)
Theorem make_checker_Raise (rule : Rule) (state : State) e :
  make_checker rule state = Raise e →
  ∃ k, e = KeyError k ∧
       k ∈ keys (rule_consumes rule) ++ keys (rule_requires rule) ∧
       k ∉ keys state.
Proof.
  unfold make_checker, rule_consumes, rule_requires.
  destruct (Consumes rule) as [consumes|]; simpl.
  - destruct (check_consumes state consumes) as [[]|e'] eqn:Hc; simpl.
    + destruct (Requires rule) as [requires|]; [|done].
      intros (k & -> & Hin & Hnin)%check_requires_Raise.
      exists k. split; [done|]. split; [|done]. apply elem_of_app. by right.
    + done.
    + intros [= <-]. apply check_consumes_Raise in Hc as (k & -> & Hin & Hnin).
      exists k. split; [done|]. split; [|done]. apply elem_of_app. by left.
  - destruct (Requires rule) as [requires|]; [|done].
    intros (k & -> & Hin & Hnin)%check_requires_Raise. by exists k.
Qed.

Lemma make_checker_Raise_witness :
  ∃ k, KeyError "wood" = KeyError k ∧
       k ∈ keys (rule_consumes craft_plank) ++ keys (rule_requires craft_plank) ∧
       k ∉ keys [("plank", 0)].
Proof. apply (make_checker_Raise craft_plank [("plank", 0)]). reflexivity. Defined.

(** ** The goal test *)

Lemma goal_as_consumes (goal : list (string * Z)) (state : State) :
  make_goal_checker goal state = check_consumes state goal.
Proof.
  induction goal as [|[item value] rest IH]; simpl; [done|]. by rewrite IH.
Qed.

(** X2.  The goal test returns True exactly when every item of the goal is in
    the state with at least the required quantity; it returns False or True
    when the state has all the items of the goal; and when it raises, it
    raises KeyError for an item of the goal that the state lacks. *)
Theorem make_goal_checker_spec (goal : list (string * Z)) (state : State) :
  (make_goal_checker goal state = Ok true ↔
     ∀ item minimum, (item, minimum) ∈ goal →
       ∃ q, getitem state item = Ok q ∧ minimum ≤ q) ∧
  (keys goal ⊆ keys state → ∃ b, make_goal_checker goal state = Ok b) ∧
  (∀ e, make_goal_checker goal state = Raise e →
        ∃ k, e = KeyError k ∧ k ∈ keys goal ∧ k ∉ keys state).
Proof.
  rewrite goal_as_consumes. split; [|split].
  - apply check_consumes_true.
  - apply check_consumes_total.
  - intros e. apply check_consumes_Raise.
Qed.

(** ** Where effect is defined *)

Lemma iadd_Ok (state : State) item value s :
  iadd state item value = Ok s → keys s = keys state ∧ item ∈ keys state.
Proof.
  unfold iadd. rewrite bind_Ok. intros (q & Hq & [= <-]).
  apply getitem_Ok_covered in Hq. split; [by apply keys_setitem_old | done].
Qed.

Lemma iadd_Raise (state : State) item value e :
  iadd state item value = Raise e → e = KeyError item ∧ item ∉ keys state.
Proof.
  unfold iadd. destruct (getitem state item) eqn:Hq; [done|].
  intros [= <-]. by apply getitem_Raise.
Qed.

Lemma produce_Ok (produces : list (string * Z)) :
  ∀ state s, produce state produces = Ok s →
             keys s = keys state ∧ keys produces ⊆ keys state.
Proof.
  induction produces as [|[item value] rest IH]; intros state s; simpl.
  - intros [= <-]. split; [done|]. intros k Hk. inversion Hk.
  - rewrite bind_Ok. intros (s1 & [Hk1 Hin]%iadd_Ok & [Hk Hsub]%IH).
    split; [congruence|]. rewrite Hk1 in Hsub.
    intros k [->|Hk']%elem_of_cons; [done | by apply Hsub].
Qed.

Lemma produce_Raise (produces : list (string * Z)) :
  ∀ state e, produce state produces = Raise e →
             ∃ k, e = KeyError k ∧ k ∈ keys produces ∧ k ∉ keys state.
Proof.
  induction produces as [|[item value] rest IH]; intros state e; simpl; [done|].
  destruct (iadd state item value) as [s1|e'] eqn:Hadd; simpl.
  - apply iadd_Ok in Hadd as [Hk1 _].
    intros (k & -> & Hin & Hnin)%IH. rewrite Hk1 in Hnin.
    exists k. split; [done|]. split; [by right | done].
  - intros [= <-]. apply iadd_Raise in Hadd as [-> Hnin].
    exists item. split; [done|]. split; [left | done].
Qed.

Lemma consume_as_produce (consumes : list (string * Z)) :
  ∀ state, consume state consumes
           = produce state (prod_map id Z.opp <$> consumes).
Proof.
  induction consumes as [|[item value] rest IH]; intros state; simpl; [done|].
  rewrite isub_iadd. destruct (iadd state item (- value)); simpl; [|done].
  apply IH.
Qed.

Lemma keys_negated (consumes : list (string * Z)) :
  keys (prod_map id Z.opp <$> consumes) = keys consumes.
Proof.
  unfold keys. rewrite <- list_fmap_compose. apply list_fmap_ext.
  by intros ? [].
Qed.

(** X3.  On a State (a dictionary: no key twice), effect returns a state
    exactly when the state has every item of the rule's Produces and
    Consumes; otherwise it raises KeyError for one of those items that the
    state lacks.  The precondition plays no part in this. *)
Theorem make_effector_defined (rule : Rule) (state : State) :
  NoDup (keys state) →
  ((∃ s, make_effector rule state = Ok s) ↔
     keys (Produces rule) ++ keys (rule_consumes rule) ⊆ keys state) ∧
  (∀ e, make_effector rule state = Raise e →
        ∃ k, e = KeyError k ∧
             k ∈ keys (Produces rule) ++ keys (rule_consumes rule) ∧
             k ∉ keys state).
Proof.
  intros Hnd. unfold make_effector, rule_consumes.
  rewrite State_copy_id by done. split; [split|].
  - intros [s Hs]. apply bind_Ok in Hs as (s1 & [Hk1 HP]%produce_Ok & Hs).
    intros k [Hk|Hk]%elem_of_app; [by apply HP|].
    destruct (Consumes rule) as [consumes|]; simpl in *; [|by inversion Hk].
    rewrite consume_as_produce in Hs. apply produce_Ok in Hs as [_ HC].
    rewrite keys_negated, Hk1 in HC. by apply HC.
  - intros Hsub.
    destruct (produce state (Produces rule)) as [s1|e] eqn:HP; simpl.
    + apply produce_Ok in HP as [Hk1 _].
      destruct (Consumes rule) as [consumes|]; simpl in *; [|by eauto].
      rewrite consume_as_produce.
      destruct (produce s1 _) as [s|e] eqn:HC; [by eauto|].
      apply produce_Raise in HC as (k & _ & Hin & Hnin).
      rewrite keys_negated in Hin. rewrite Hk1 in Hnin.
      destruct Hnin. apply Hsub, elem_of_app. by right.
    + apply produce_Raise in HP as (k & _ & Hin & Hnin).
      destruct Hnin. apply Hsub, elem_of_app. by left.
  - intros e.
    destruct (produce state (Produces rule)) as [s1|e'] eqn:HP; simpl.
    + apply produce_Ok in HP as [Hk1 _].
      destruct (Consumes rule) as [consumes|]; simpl; [|done].
      rewrite consume_as_produce.
      intros (k & -> & Hin & Hnin)%produce_Raise.
      rewrite keys_negated in Hin. rewrite Hk1 in Hnin.
      exists k. split; [done|]. split; [|done]. apply elem_of_app. by right.
    + intros [= <-]. apply produce_Raise in HP as (k & -> & Hin & Hnin).
      exists k. split; [done|]. split; [|done]. apply elem_of_app. by left.
Qed.

Lemma make_effector_defined_witness :
  ((∃ s, make_effector craft_plank start_A = Ok s) ↔
     keys (Produces craft_plank) ++ keys (rule_consumes craft_plank)
       ⊆ keys start_A) ∧
  (∀ e, make_effector craft_plank start_A = Raise e →
        ∃ k, e = KeyError k ∧
             k ∈ keys (Produces craft_plank) ++ keys (rule_consumes craft_plank) ∧
             k ∉ keys start_A).
Proof.
  apply make_effector_defined. by apply (bool_decide_unpack _).
Defined.

(** ** Quantities after an effect *)

Lemma dict_get_elem (d : list (string * Z)) item default :
  item ∈ keys d → (item, dict_get d item default) ∈ d.
Proof.
  unfold keys. induction d as [|[k v] rest IH]; simpl; intros Hin.
  - inversion Hin.
  - case_decide as Hk; [subst k; left|].
    right. apply IH. apply elem_of_cons in Hin as [?|?]; [congruence | done].
Qed.

Lemma dict_get_nonneg (d : list (string * Z)) item :
  Forall (λ kv, 0 ≤ kv.2) d → 0 ≤ dict_get d item 0.
Proof.
  induction 1 as [|[k v] rest Hv _ IH]; simpl; [done|]. by case_decide.
Qed.

(* after a gated transition every item holds at least what the rule produces
   of it *)
Lemma effect_lower_bound (rule : Rule) (state : State) :
  NoDup (keys state) →
  well_formed (keys state) rule →
  nonnegative state →
  make_checker rule state = Ok true →
  ∃ s, make_effector rule state = Ok s ∧ keys s = keys state ∧
       ∀ k v, getitem s k = Ok v → dict_get (Produces rule) k 0 ≤ v.
Proof.
  intros Hnd (Hitems & HndP & HndC) Hpos Hcheck.
  destruct (make_effector_spec rule state) as (s & Hs & Hkeys & Hget);
    [done| |done|done|].
  { intros k Hk. apply Hitems. unfold rule_items. rewrite !elem_of_app in *. tauto. }
  exists s. split; [done|]. split; [done|].
  apply (make_checker_true rule state Hpos) in Hcheck as [Hcons _].
  intros k v Hv.
  assert (k ∈ keys state) as Hk by (rewrite <- Hkeys; by eapply getitem_Ok_covered).
  destruct (getitem_covered state k Hk) as [q Hq].
  rewrite (Hget k q Hq) in Hv. injection Hv as <-.
  pose proof (getitem_nonneg _ _ _ Hpos Hq) as Hq0.
  enough (dict_get (rule_consumes rule) k 0 ≤ q) by lia.
  destruct (decide (k ∈ keys (rule_consumes rule))) as [Hin|Hnin].
  - apply (dict_get_elem _ _ 0) in Hin. unfold rule_consumes in *.
    destruct (Consumes rule) as [consumes|]; simpl in *; [|by inversion Hin].
    destruct (Hcons consumes eq_refl _ _ Hin) as (q' & Hq' & Hle). congruence.
  - by rewrite dict_get_absent.
Qed.

Lemma nonnegative_intro (s : State) :
  NoDup (keys s) → (∀ k v, getitem s k = Ok v → 0 ≤ v) → nonnegative s.
Proof.
  intros Hnd Hget. apply Forall_forall. intros [k v] Hkv. simpl.
  apply (Hget k). by apply elem_getitem.
Qed.

(** X4.  A gated transition keeps the inventory non-negative: when the
    precondition of a well-formed rule holds on a state with non-negative
    quantities and the rule produces non-negative amounts, the state returned
    by effect has non-negative quantities too. *)
Theorem make_effector_nonnegative (rule : Rule) (state : State) :
  NoDup (keys state) →
  well_formed (keys state) rule →
  Forall (λ kv, 0 ≤ kv.2) (Produces rule) →
  nonnegative state →
  make_checker rule state = Ok true →
  ∃ s, make_effector rule state = Ok s ∧ nonnegative s.
Proof.
  intros Hnd Hwf Hprod Hpos Hcheck.
  destruct (effect_lower_bound rule state) as (s & Hs & Hkeys & Hbound);
    [done..|].
  exists s. split; [done|].
  apply nonnegative_intro; [by rewrite Hkeys|].
  intros k v Hv. specialize (Hbound k v Hv).
  pose proof (dict_get_nonneg (Produces rule) k Hprod). lia.
Qed.

Lemma make_effector_nonnegative_witness :
  ∃ s, make_effector craft_plank start_A = Ok s ∧ nonnegative s.
Proof.
  apply make_effector_nonnegative.
  - by apply (bool_decide_unpack _).
  - unfold well_formed. simpl.
    split; [|split]; by apply (bool_decide_unpack _).
  - by apply (bool_decide_unpack _).
  - by apply (bool_decide_unpack _).
  - reflexivity.
Defined.

(** ** Effects in sequence *)

Lemma State_ext (s t : State) :
  keys s = keys t → NoDup (keys s) →
  (∀ k, k ∈ keys s → getitem s k = getitem t k) → s = t.
Proof.
  unfold keys. revert t.
  induction s as [|[k v] s IH]; intros [|[k' v'] t]; simpl; try done.
  intros [= <- Hkeys] [Hfresh Hnd]%NoDup_cons Hget. f_equal.
  - f_equal. specialize (Hget k). rewrite !decide_True in Hget by done.
    assert (Ok v = Ok v') as [= ->]; [|done]. apply Hget. left.
  - apply IH; [done..|]. intros j Hj. specialize (Hget j).
    rewrite !decide_False in Hget by (intros ->; done).
    apply Hget. by right.
Qed.

(** X5.  Two effects commute: on a State that has the items of two
    well-formed rules, applying the effect of the first and then of the second
    gives the same state as applying them the other way round. *)
Theorem make_effector_commute (rule1 rule2 : Rule) (state : State) :
  NoDup (keys state) →
  well_formed (keys state) rule1 →
  well_formed (keys state) rule2 →
  ∃ s, make_effector rule1 state ≫= make_effector rule2 = Ok s ∧
       make_effector rule2 state ≫= make_effector rule1 = Ok s.
Proof.
  intros Hnd (Hi1 & HP1 & HC1) (Hi2 & HP2 & HC2).
  assert (∀ rule, rule_items rule ⊆ keys state →
            keys (Produces rule) ++ keys (rule_consumes rule) ⊆ keys state)
    as Hcover.
  { intros rule Hi k Hk. apply Hi. unfold rule_items.
    rewrite !elem_of_app in *. tauto. }
  destruct (make_effector_spec rule1 state) as (s1 & Hs1 & Hk1 & Hg1); auto.
  destruct (make_effector_spec rule2 state) as (s2 & Hs2 & Hk2 & Hg2); auto.
  destruct (make_effector_spec rule2 s1) as (s12 & Hs12 & Hk12 & Hg12);
    rewrite ?Hk1; auto.
  destruct (make_effector_spec rule1 s2) as (s21 & Hs21 & Hk21 & Hg21);
    rewrite ?Hk2; auto.
  exists s12. rewrite Hs1, Hs2. simpl. split; [done|].
  rewrite Hs21. f_equal. apply State_ext; [congruence | congruence |].
  intros k Hk. rewrite Hk21, Hk2 in Hk.
  destruct (getitem_covered state k Hk) as [q Hq].
  rewrite (Hg21 k _ (Hg2 k q Hq)), (Hg12 k _ (Hg1 k q Hq)). f_equal. lia.
Qed.

Lemma make_effector_commute_witness :
  ∃ s, make_effector craft_plank (with_wood 1) ≫= make_effector punch_for_wood
         = Ok s ∧
       make_effector punch_for_wood (with_wood 1) ≫= make_effector craft_plank
         = Ok s.
Proof.
  apply make_effector_commute.
  - by apply (bool_decide_unpack _).
  - unfold well_formed. split; [|split]; by apply (bool_decide_unpack _).
  - unfold well_formed. split; [|split]; by apply (bool_decide_unpack _).
Defined.

(** ** State.copy *)

(** X6.  State.copy returns a new object with the pairs of the original in the
    same order, and the two are independent: an item assignment through the
    copy's reference leaves the original as it was. *)
Theorem State_copy_obj_independent (self : positive) (h : heap) (S : State)
    (item : string) (value : Z) :
  h !! self = Some S →
  NoDup (keys S) →
  h !! (State_copy_obj self h).1 = None ∧
  (State_copy_obj self h).2 !! (State_copy_obj self h).1 = Some S ∧
  (State_copy_obj self h).2 !! self = Some S ∧
  ∀ h', iadd_obj (State_copy_obj self h).1 item value (State_copy_obj self h).2
          = Ok h' →
        h' !! self = Some S ∧
        ∃ q, getitem S item = Ok q ∧
             getitem (h' !!! (State_copy_obj self h).1) item = Ok (q + value).
Proof.
  intros HS Hnd. unfold State_copy_obj. simpl.
  rewrite (lookup_total_correct _ _ _ HS), State_copy_id by done.
  assert (h !! fresh (dom h) = None) as Hnew by apply not_elem_of_dom, is_fresh.
  assert (self ≠ fresh (dom h)) as Hne by congruence.
  split; [done|]. split; [apply lookup_insert_eq|].
  split; [by rewrite lookup_insert_ne|].
  intros h'. unfold iadd_obj. rewrite lookup_total_insert_eq.
  rewrite bind_Ok. intros (s & Hs & [= <-]).
  split; [by rewrite !lookup_insert_ne|].
  rewrite lookup_total_insert_eq. unfold iadd in Hs.
  apply bind_Ok in Hs as (q & Hq & [= <-]).
  exists q. split; [done|]. apply getitem_setitem_eq.
Qed.

Lemma State_copy_obj_independent_witness :
  ({[1%positive := start_A]} : heap)
    !! (State_copy_obj 1 {[1%positive := start_A]}).1 = None ∧
  (State_copy_obj 1 {[1%positive := start_A]}).2
    !! (State_copy_obj 1 {[1%positive := start_A]}).1 = Some start_A ∧
  (State_copy_obj 1 {[1%positive := start_A]}).2 !! 1%positive = Some start_A ∧
  ∀ h', iadd_obj (State_copy_obj 1 {[1%positive := start_A]}).1 "plank" 4
          (State_copy_obj 1 {[1%positive := start_A]}).2 = Ok h' →
        h' !! 1%positive = Some start_A ∧
        ∃ q, getitem start_A "plank" = Ok q ∧
             getitem (h' !!! (State_copy_obj 1 {[1%positive := start_A]}).1)
               "plank" = Ok (q + 4).
Proof.
  apply State_copy_obj_independent.
  - reflexivity.
  - by apply (bool_decide_unpack _).
Defined.

(** ** A generator that fails *)

(** X7.  The generator is lazy: when the precondition or the effect of a recipe
    raises on the state, the triples of the recipes before it have already
    been yielded, in order, and the exception ends the iteration; the recipes
    after it are not looked at. *)
Theorem graph_stops_at_failure (before after : list Recipe.t) (r : Recipe.t)
    (state : State) (e : exn) :
  Forall (evaluates state) before →
  Recipe.check r state = Raise e ∨
    (Recipe.check r state = Ok true ∧ Recipe.effect r state = Raise e) →
  ∃ yields, graph (before ++ r :: after) state = (yields, Some e) ∧
            expansion_of before state yields.
Proof.
  unfold expansion_of. intros Hall Hfail.
  induction before as [|r0 before IH]; simpl.
  - exists []. split; [|constructor].
    destruct Hfail as [->|[-> ->]]; done.
  - apply Forall_cons in Hall as [(b & Hb & Heff) Hall].
    destruct (IH Hall) as (ys & Hys & Hspec). rewrite Hb. destruct b.
    + destruct Heff as [next_state Hnext]; [done|]. rewrite Hnext, Hys.
      eexists. split; [done|]. rewrite filter_cons_True by done.
      by constructor.
    + exists ys. split; [done|]. by rewrite filter_cons_False by congruence.
Qed.

Lemma graph_stops_at_failure_witness :
  ∃ yields,
    graph (compile_all [("punch for wood", punch_for_wood)]
           ++ compile "craft_plank" craft_plank
           :: compile_all [("punch for wood", punch_for_wood)])
      [("wood", 1)] = (yields, Some (KeyError "plank")) ∧
    expansion_of (compile_all [("punch for wood", punch_for_wood)])
      [("wood", 1)] yields.
Proof.
  apply graph_stops_at_failure.
  - apply Forall_cons. split; [|by apply Forall_nil].
    exists true. split; [reflexivity|]. intros _. by eexists.
  - right. split; reflexivity.
Defined.

(** * Further properties of search *)

(** ** The keys of the bookkeeping dictionaries *)

Lemma recorded_initial (state : State) : recorded (initial state).
Proof.
  intros s. simpl. rewrite !lookup_singleton_is_Some, list_elem_of_singleton.
  by repeat split.
Qed.

Lemma recorded_accept heuristic current_state new_cost node_action node_state l l' :
  recorded l →
  accept heuristic current_state new_cost node_action node_state l = Ok l' →
  recorded l'.
Proof.
  intros Hrec. rewrite accept_Ok. intros (h & priority & _ & _ & ->) s.
  destruct (Hrec s) as (Hc & Hp & Ha). simpl.
  rewrite !lookup_insert_is_Some', elem_of_app, list_elem_of_singleton.
  rewrite Hc, Hp, Ha.
  repeat split; intros [?|?]; subst; auto.
Qed.

Lemma recorded_relax heuristic current_cost current_state yields :
  ∀ l l', recorded l →
          relax heuristic current_cost current_state yields l = Ok l' →
          recorded l'.
Proof.
  induction yields as [|[[node_action node_state] node_cost] rest IH];
    intros l l' Hl; simpl.
  - by intros [= <-].
  - rewrite bind_Ok. intros (new_cost & _ & (l1 & Hstep & Hrest)%bind_Ok).
    apply (IH l1); [|done].
    destruct (admissible _ node_state l).
    + by eapply recorded_accept.
    + by injection Hstep as <-.
Qed.

Lemma recorded_reachable graph is_goal heuristic state l :
  reachable graph is_goal heuristic state l → recorded l.
Proof.
  induction 1 as [|l l' _ IH Hbody]; [apply recorded_initial|].
  apply body_Continue in Hbody as (c & s & a & rest & _ & _ & Hfor).
  apply for_each_relax in Hfor.
  eapply recorded_relax; [|exact Hfor]. exact IH.
Qed.

(** X8.  At every point of a search the dictionaries cost, prev and actions
    have exactly the visited states as keys.  So the admission test comes down
    to its first disjunct, node_state not in cost: a state that has a cost is
    visited, and the comparison new_cost < cost[node_state] never admits
    anything. *)
Theorem admission_by_membership graph is_goal heuristic (state : State)
    (l : locals) :
  occurs graph is_goal heuristic state l →
  recorded l ∧
  ∀ new_cost node_state,
    admissible new_cost node_state l
    = bool_decide (cost l !! node_state = None).
Proof.
  intros Hocc.
  assert (recorded l) as Hrec.
  { destruct Hocc as [H|(l0 & c & s & a & rest & handled & H & _ & _ & _ & Hrelax)].
    - by eapply recorded_reachable.
    - eapply recorded_relax; [|exact Hrelax].
      exact (recorded_reachable _ _ _ _ _ H). }
  split; [done|]. intros new_cost node_state.
  destruct (Hrec node_state) as (Hc & _ & _). unfold admissible.
  destruct (cost l !! node_state) as [old|] eqn:Hcost.
  - rewrite bool_decide_true by (apply Hc; eauto).
    rewrite andb_false_r. by rewrite bool_decide_false.
  - rewrite bool_decide_false, bool_decide_true; [done..|].
    intros Hin%Hc. by destruct Hin.
Qed.

Lemma admission_by_membership_witness :
  recorded after_one_A ∧
  ∀ new_cost node_state,
    admissible new_cost node_state after_one_A
    = bool_decide (cost after_one_A !! node_state = None).
Proof.
  apply (admission_by_membership (graph recipes_A) (make_goal_checker goal_A)
           zero_heuristic start_A).
  left. apply (reach_iteration _ _ _ _ (initial start_A)).
  - apply reach_initial.
  - vm_compute. reflexivity.
Defined.

(** ** Marking on admission

    The ghost list [pushed] is read here as the log of the insertions into the
    frontier; the theorem below says what each statement does to the frontier,
    to the visited list and to the log, so that the log is exactly that. *)

Lemma least_elem (rest : list entry) :
  ∀ best m, least best rest = Ok m → m ∈ best :: rest.
Proof.
  induction rest as [|e rest IH]; intros best m; simpl.
  - intros [= <-]. left.
  - rewrite bind_Ok. intros ([] & _ & Hm%IH).
    + by right.
    + apply elem_of_cons in Hm as [->|Hm]; [left | by do 2 right].
Qed.

Lemma heappop_perm (heap : list entry) (e : entry) (rest : list entry) :
  heappop heap = Ok (e, rest) → heap ≡ₚ e :: rest.
Proof.
  destruct heap as [|x heap']; [done|]. unfold heappop.
  rewrite bind_Ok. intros (m & Hm%least_elem & [= <- <-]).
  by apply remove_first_perm.
Qed.

Lemma relax_singleton heuristic current_cost current_state node_action
    node_state node_cost l l' :
  relax heuristic current_cost current_state
    [(node_action, node_state, node_cost)] l = Ok l' ↔
  ∃ new_cost,
    num_add current_cost (Fin node_cost) = Ok new_cost ∧
    if admissible new_cost node_state l
    then accept heuristic current_state new_cost node_action node_state l
         = Ok l'
    else l' = l.
Proof.
  simpl. rewrite bind_Ok. split.
  - intros (new_cost & Hnew & (l1 & Hstep & [= <-])%bind_Ok).
    exists new_cost. split; [done|].
    destruct (admissible new_cost node_state l); [done | congruence].
  - intros (new_cost & Hnew & Hstep). exists new_cost. split; [done|].
    destruct (admissible new_cost node_state l).
    + by rewrite Hstep.
    + by subst l'.
Qed.

Lemma relax_cons heuristic current_cost current_state node rest l :
  relax heuristic current_cost current_state (node :: rest) l
  = (l1 ← relax heuristic current_cost current_state [node] l;
     relax heuristic current_cost current_state rest l1).
Proof.
  destruct node as [[node_action node_state] node_cost]. simpl.
  destruct (num_add current_cost (Fin node_cost)) as [new_cost|];
    rewrite ?Ok_bind, ?Raise_bind; [|done].
  destruct (if admissible new_cost node_state l
            then accept heuristic current_state new_cost node_action
                   node_state l
            else Ok l) as [l1|]; by rewrite ?Ok_bind, ?Raise_bind.
Qed.

Lemma relax_later heuristic current_cost current_state yields :
  ∀ l l', relax heuristic current_cost current_state yields l = Ok l' →
          later heuristic l l'.
Proof.
  induction yields as [|node rest IH]; intros l l'.
  - intros [= <-]. apply rtc_refl.
  - rewrite relax_cons, bind_Ok. intros (l1 & Hstep & Hrest%IH).
    eapply rtc_l; [|done]. by eapply step_neighbour.
Qed.

Lemma reachable_later graph is_goal heuristic (state : State) (l : locals) :
  reachable graph is_goal heuristic state l →
  later heuristic (initial state) l.
Proof.
  induction 1 as [|l l' _ IH Hbody]; [apply rtc_refl|].
  apply body_Continue in Hbody as (c & s & a & rest & Hpop & _ & Hfor).
  apply for_each_relax, relax_later in Hfor.
  etrans; [done|]. eapply rtc_l; [|done]. by eapply step_pop.
Qed.

Lemma occurs_later graph is_goal heuristic (state : State) (l : locals) :
  occurs graph is_goal heuristic state l → later heuristic (initial state) l.
Proof.
  intros [H|(l0 & c & s & a & rest & handled & H & Hpop & _ & _ & Hrelax)].
  - by eapply reachable_later.
  - etrans; [by eapply reachable_later|].
    eapply rtc_l; [by eapply step_pop | by eapply relax_later].
Qed.

(* what one step does to the frontier, the visited list and the log *)
Lemma step_effect heuristic (l l' : locals) :
  step heuristic l l' →
  (∃ e, queue l ≡ₚ e :: queue l' ∧ visited l' = visited l ∧
        pushed l' = pushed l) ∨
  (∃ e, (entry_state e ∉ visited l) ∧ queue l' ≡ₚ e :: queue l ∧
        visited l' = (visited l ++ [entry_state e]) ∧
        pushed l' = pushed l ++ [e]) ∨
  l' = l.
Proof.
  intros [l0 e rest Hpop|l0 l1 c s [[a t] k] Hrelax].
  - left. exists e. split; [by apply heappop_perm | done].
  - apply relax_singleton in Hrelax as (new_cost & _ & Hstep).
    destruct (admissible new_cost t l0) eqn:Hadm; [|by right; right].
    right. left. apply admissible_fresh in Hadm.
    apply accept_Ok in Hstep as (h & priority & _ & _ & ->).
    exists (priority, t, Some a). simpl. split; [done|]. split; [|done].
    unfold heappush. symmetry. apply Permutation_cons_append.
Qed.

Lemma consistent_step heuristic (l l' : locals) :
  consistent l → step heuristic l l' → consistent l'.
Proof.
  intros Hl Hstep. revert Hl.
  destruct Hstep as [l0 e rest Hpop|l0 l1 c s node Hrelax]; intros Hl.
  - apply consistent_set_queue; [done | by eapply heappop_rest].
  - eapply consistent_relax; [|exact Hrelax]. done.
Qed.

Lemma later_spec heuristic (l l2 : locals) :
  later heuristic l l2 →
  consistent l →
  consistent l2 ∧
  visited l `prefix_of` visited l2 ∧
  pushed l `prefix_of` pushed l2 ∧
  ∀ e, e ∈ queue l2 → entry_state e ∈ visited l → e ∈ queue l.
Proof.
  induction 1 as [l|l l1 l2 Hstep _ IH]; intros Hl; [done|].
  pose proof (consistent_step _ _ _ Hl Hstep) as Hl1.
  destruct (IH Hl1) as (Hl2 & Hvis & Hlog & Hq). split; [done|].
  destruct (step_effect _ _ _ Hstep)
    as [(e0 & Hperm & Hv & Hp)|[(e0 & Hfresh & Hperm & Hv & Hp)| ->]];
    [| |done].
  - rewrite Hv in Hvis, Hq. rewrite Hp in Hlog. split; [done|].
    split; [done|]. intros e He Hin. rewrite Hperm. right. by apply Hq.
  - split; [|split].
    + etrans; [|done]. rewrite Hv. by apply prefix_app_r.
    + etrans; [|done]. rewrite Hp. by apply prefix_app_r.
    + intros e He Hin.
      assert (e ∈ queue l1) as He1.
      { apply Hq; [done|]. rewrite Hv. apply elem_of_app. by left. }
      rewrite Hperm in He1. apply elem_of_cons in He1 as [->|]; done.
Qed.

(** C3.  At every point of a search, between iterations or inside the for
    loop, reached from the initial locals by the statements of the loop:
    - the frontier holds entries of pairwise distinct states, all of them
      visited, and the visited list has no state twice;
    - heappop takes one entry out of the frontier and leaves the visited list
      as it is: a state is not marked when it is popped;
    - the body of the for statement, for a neighbour that passes the admission
      test, appends the neighbour to the visited list and puts exactly one
      entry for it in the frontier, the neighbour being unvisited before; for
      a neighbour that fails the test it changes nothing;
    - a visited state fails the admission test whatever the candidate cost, a
      cost below the recorded one included;
    - from then on the visited list only grows at its end, and an entry found
      in the frontier later for a state visited now is an entry that is in the
      frontier now: a state that has left the frontier never comes back;
    - the log of the insertions, which these steps extend by exactly the
      entries they put in the frontier, has every state at most once, is
      state by state the visited list, and contains the frontier. *)
Theorem visited_on_admission graph is_goal heuristic (state : State) (l : locals) :
  occurs graph is_goal heuristic state l →
  later heuristic (initial state) l ∧
  (NoDup (visited l) ∧
   NoDup (entry_state <$> queue l) ∧
   ∀ e, e ∈ queue l → entry_state e ∈ visited l) ∧
  (∀ e rest,
     heappop (queue l) = Ok (e, rest) →
     queue l ≡ₚ e :: rest ∧
     visited (set_queue l rest) = visited l ∧
     pushed (set_queue l rest) = pushed l) ∧
  (∀ current_cost current_state node_action node_state node_cost l',
     relax heuristic current_cost current_state
       [(node_action, node_state, node_cost)] l = Ok l' →
     ∃ new_cost,
       num_add current_cost (Fin node_cost) = Ok new_cost ∧
       if admissible new_cost node_state l then
         (node_state ∉ visited l) ∧
         ∃ h priority,
           heuristic node_state = Ok h ∧
           num_add new_cost h = Ok priority ∧
           visited l' = (visited l ++ [node_state]) ∧
           queue l' ≡ₚ (priority, node_state, Some node_action) :: queue l ∧
           pushed l' = pushed l ++ [(priority, node_state, Some node_action)]
       else l' = l) ∧
  (∀ node_state new_cost,
     node_state ∈ visited l → admissible new_cost node_state l = false) ∧
  (∀ node_state new_cost old_cost,
     node_state ∈ visited l → cost l !! node_state = Some old_cost →
     num_ltb new_cost old_cost = true →
     admissible new_cost node_state l = false) ∧
  (∀ l2, later heuristic l l2 →
     visited l `prefix_of` visited l2 ∧
     pushed l `prefix_of` pushed l2 ∧
     NoDup (entry_state <$> pushed l2) ∧
     ∀ e, e ∈ queue l2 → entry_state e ∈ visited l → e ∈ queue l) ∧
  (visited l = entry_state <$> pushed l ∧
   queue l ⊆+ pushed l ∧
   NoDup (entry_state <$> pushed l)).
Proof.
  intros Hocc.
  pose proof (consistent_occurs _ _ _ _ _ Hocc) as Hl.
  pose proof Hl as (Hv & Hnd & Hq).
  split; [by eapply occurs_later|].
  split; [|split; [|split; [|split; [|split; [|split]]]]].
  - split; [done|]. split; [by eapply frontier_states_distinct|].
    intros e He. rewrite Hv. apply list_elem_of_fmap. exists e.
    split; [done|]. by eapply elem_of_submseteq.
  - intros e rest Hpop. split; [by apply heappop_perm | done].
  - intros c s a t k l' (new_cost & Hnew & Hstep)%relax_singleton.
    exists new_cost. split; [done|].
    destruct (admissible new_cost t l) eqn:Hadm; [|done].
    split; [by eapply admissible_fresh|].
    apply accept_Ok in Hstep as (h & priority & Hh & Hp & ->).
    exists h, priority. simpl. split; [done|]. split; [done|].
    split; [done|]. split; [|done].
    unfold heappush. symmetry. apply Permutation_cons_append.
  - intros node_state new_cost. apply admissible_visited.
  - intros node_state new_cost old_cost Hin _ _. by apply admissible_visited.
  - intros l2 Hlater.
    destruct (later_spec _ _ _ Hlater Hl)
      as ((Hv2 & Hnd2 & _) & Hvis & Hlog & Hback).
    split; [done|]. split; [done|]. split; [by rewrite <- Hv2 | done].
  - split; [done|]. split; [done|]. by rewrite <- Hv.
Qed.

Lemma visited_on_admission_witness :
  later zero_heuristic (initial start_A) after_one_A ∧
  (NoDup (visited after_one_A) ∧
   NoDup (entry_state <$> queue after_one_A) ∧
   ∀ e, e ∈ queue after_one_A → entry_state e ∈ visited after_one_A) ∧
  (∀ e rest,
     heappop (queue after_one_A) = Ok (e, rest) →
     queue after_one_A ≡ₚ e :: rest ∧
     visited (set_queue after_one_A rest) = visited after_one_A ∧
     pushed (set_queue after_one_A rest) = pushed after_one_A) ∧
  (∀ current_cost current_state node_action node_state node_cost l',
     relax zero_heuristic current_cost current_state
       [(node_action, node_state, node_cost)] after_one_A = Ok l' →
     ∃ new_cost,
       num_add current_cost (Fin node_cost) = Ok new_cost ∧
       if admissible new_cost node_state after_one_A then
         (node_state ∉ visited after_one_A) ∧
         ∃ h priority,
           zero_heuristic node_state = Ok h ∧
           num_add new_cost h = Ok priority ∧
           visited l' = (visited after_one_A ++ [node_state]) ∧
           queue l'
           ≡ₚ (priority, node_state, Some node_action) :: queue after_one_A ∧
           pushed l'
           = pushed after_one_A ++ [(priority, node_state, Some node_action)]
       else l' = after_one_A) ∧
  (∀ node_state new_cost,
     node_state ∈ visited after_one_A →
     admissible new_cost node_state after_one_A = false) ∧
  (∀ node_state new_cost old_cost,
     node_state ∈ visited after_one_A →
     cost after_one_A !! node_state = Some old_cost →
     num_ltb new_cost old_cost = true →
     admissible new_cost node_state after_one_A = false) ∧
  (∀ l2, later zero_heuristic after_one_A l2 →
     visited after_one_A `prefix_of` visited l2 ∧
     pushed after_one_A `prefix_of` pushed l2 ∧
     NoDup (entry_state <$> pushed l2) ∧
     ∀ e, e ∈ queue l2 → entry_state e ∈ visited after_one_A →
          e ∈ queue after_one_A) ∧
  (visited after_one_A = entry_state <$> pushed after_one_A ∧
   queue after_one_A ⊆+ pushed after_one_A ∧
   NoDup (entry_state <$> pushed after_one_A)).
Proof.
  apply (visited_on_admission (graph recipes_A) (make_goal_checker goal_A)
           zero_heuristic start_A).
  left. apply (reach_iteration _ _ _ _ (initial start_A)).
  - apply reach_initial.
  - vm_compute. reflexivity.
Defined.

(** ** How a call of search can end

    No hypothesis on the goal test, the heuristic or the generator here: they
    may raise. *)

Section result.
Variable elapsed : nat → Q.
Variable graph : State → list triple * option exn.
Variable is_goal : State → result bool.
Variable limit : Q.
Variable heuristic : State → result num.
Variable state : State.

Lemma num_add_Raise (a b : num) e : num_add a b = Raise e → e = OverflowError.
Proof. destruct a, b; simpl; try done; case_match; by intros [= <-]. Qed.

Lemma relax_Raise current_cost current_state yields e :
  ∀ l, relax heuristic current_cost current_state yields l = Raise e →
       e = OverflowError ∨
       ∃ a s c, (a, s, c) ∈ yields ∧ heuristic s = Raise e.
Proof.
  induction yields as [|[[node_action node_state] node_cost] rest IH];
    intros l; simpl; [done|].
  assert (∀ l1, relax heuristic current_cost current_state rest l1 = Raise e →
            e = OverflowError ∨
            ∃ a s c, (a, s, c) ∈ (node_action, node_state, node_cost) :: rest ∧
                     heuristic s = Raise e) as IH'.
  { intros l1 [?|(a & s & c & Hin & Hs)]%IH; [by left|].
    right. exists a, s, c. split; [by right | done]. }
  destruct (num_add current_cost (Fin node_cost)) as [new_cost|e'] eqn:Hnew;
    rewrite ?Ok_bind, ?Raise_bind;
    [|intros [= <-]; left; by eapply num_add_Raise].
  destruct (admissible new_cost node_state l); [|by apply IH'].
  unfold accept. destruct (heuristic node_state) as [h|e'] eqn:Hh;
    rewrite ?Ok_bind, ?Raise_bind.
  - destruct (num_add new_cost h) as [priority|e'] eqn:Hp;
      rewrite ?Ok_bind, ?Raise_bind; [by apply IH'|].
    intros [= <-]. left. by eapply num_add_Raise.
  - intros [= <-]. right. exists node_action, node_state, node_cost.
    split; [left | done].
Qed.

Lemma body_result (l : locals) :
  reachable graph is_goal heuristic state l →
  match body graph is_goal heuristic l with
  | Continue _ => True
  | Break (Plan path) l' =>
      complete graph is_goal state path ∧ NoDup path.*1 ∧
      ∀ x, x ∈ path.*1 → x ∈ visited l'
  | Break (Raised e) l' =>
      (e = IndexError ∧ queue l' = []) ∨ e = OverflowError ∨
      passed_on graph is_goal heuristic l' e
  | Break NoPlan _ | Break Unfinished _ => False
  end.
Proof.
  intros Hreach.
  destruct (heappop_occurs graph is_goal heuristic state l)
    as [[Hq Hpop]|(e & rest & Hpop & _)]; [by left| |].
  { rewrite body_empty_frontier by done. by left. }
  destruct (popped_visited _ _ _ _ _ _ _ Hreach Hpop) as [Hpushed Hvis].
  destruct (tracked_reachable _ _ _ _ _ Hreach) as [Htrail Hact].
  destruct (consistent_reachable _ _ _ _ _ Hreach) as (_ & Hnd & _).
  destruct e as [[c s] a]. unfold entry_state in Hvis. simpl in Hvis.
  unfold body. rewrite Hpop.
  destruct (is_goal s) as [[]|e] eqn:Hgoal.
  - apply list_elem_of_lookup in Hvis as [i Hi].
    pose proof (lookup_lt_Some _ _ _ Hi) as Hilen.
    destruct (Htrail i s Hi) as (path & Hpath & Hlen & Hin & Hsub).
    pose proof (trail_walk graph state l s a path (length (visited l)) Hpath
                  (Hact c s a Hpushed)) as Hwalk.
    change (prev (set_queue l rest)) with (prev l).
    change (visited (set_queue l rest)) with (visited l).
    destruct (prev l !! s) as [back|]; [|done].
    rewrite walk_back_set_queue, Hwalk by lia. split; [|split].
    + exists s. split; [by eapply trail_chain | done].
    + eapply sublist_NoDup; [|done].
      eapply sublist_NoDup; [done | apply sublist_take].
    + done.
  - unfold for_each.
    destruct (relax heuristic c s (graph s).1 (set_queue l rest))
      as [l'|e] eqn:Hrelax; simpl.
    + destruct (graph s).2 as [e|] eqn:Hend; [|done].
      right. right. left. exists s. split; [done | by right].
    + right.
      apply relax_Raise in Hrelax as [->|(a' & s' & c' & Hin & Hs')]; [by left|].
      right. right. by exists s, a', s', c'.
  - right. right. left. exists s. split; [done | by left].
Qed.

Lemma loop_result (fuel : nat) :
  ∀ n l, reachable graph is_goal heuristic state l →
  match loop elapsed graph is_goal limit heuristic fuel n l with
  | (Plan path, l') =>
      complete graph is_goal state path ∧ NoDup path.*1 ∧
      ∀ x, x ∈ path.*1 → x ∈ visited l'
  | (NoPlan, _) =>
      ∃ k, (n ≤ k ≤ n + fuel)%nat ∧ in_time elapsed limit k = false
  | (Raised e, l') =>
      (e = IndexError ∧ queue l' = []) ∨ e = OverflowError ∨
      passed_on graph is_goal heuristic l' e
  | (Unfinished, _) =>
      ∀ k, (n ≤ k ≤ n + fuel)%nat → in_time elapsed limit k = true
  end.
Proof.
  induction fuel as [|fuel IH]; intros n l Hreach; simpl.
  - destruct (in_time elapsed limit n) eqn:Htime.
    + intros k Hk. by replace k with n by lia.
    + exists n. split; [lia | done].
  - destruct (in_time elapsed limit n) eqn:Htime;
      [|exists n; split; [lia | done]].
    pose proof (body_result l Hreach) as Hbody.
    destruct (body graph is_goal heuristic l) as [l'|o l'] eqn:Hb.
    + specialize (IH (S n) l' (reach_iteration _ _ _ _ _ _ Hreach Hb)).
      destruct (loop _ _ _ _ _ fuel (S n) l') as [[] ?]; [done| |done|].
      * destruct IH as (k & Hk & Hlate). exists k. split; [lia | done].
      * intros k Hk. destruct (decide (k = n)) as [->|]; [done|].
        apply IH. lia.
    + by destruct o.
Qed.

(** X9.  A plan returned by search is complete and has no loop: it starts at
    the start state with no action, every further pair is reached from the one
    before it by a transition that the generator yields under the recorded
    action name, its last state satisfies the goal, and no state occurs in it
    twice.  This holds for every graph, goal test, heuristic, timing and
    budget. *)
Theorem search_plan_sound (fuel : nat) (path : plan) :
  search elapsed graph is_goal limit heuristic state fuel = Plan path →
  complete graph is_goal state path ∧ NoDup path.*1.
Proof.
  unfold search, search_run.
  pose proof (loop_result fuel 1 (initial state) (reach_initial _ _ _ _)) as H.
  destruct (loop _ _ _ _ _ fuel 1%nat (initial state)) as [o l].
  simpl. intros ->. by destruct H as (? & ? & _).
Qed.

(** X10.  Whatever search raises is either an exception raised by the goal
    test or the generator on a visited state, or by the heuristic on a
    neighbour of a visited state, or IndexError from popping an empty
    frontier, or OverflowError from one of its two additions (lines 168 and
    173), which raise it when an int beyond the float range meets inf.  Its
    own lookups in cost, prev and actions never fail, and the heap never has
    to compare two actions. *)
Theorem search_Raised (fuel : nat) (e : exn) :
  search elapsed graph is_goal limit heuristic state fuel = Raised e →
  (e = IndexError ∧
   queue (search_run elapsed graph is_goal limit heuristic state fuel).2 = []) ∨
  e = OverflowError ∨
  passed_on graph is_goal heuristic
    (search_run elapsed graph is_goal limit heuristic state fuel).2 e.
Proof.
  unfold search, search_run.
  pose proof (loop_result fuel 1 (initial state) (reach_initial _ _ _ _)) as H.
  destruct (loop _ _ _ _ _ fuel 1%nat (initial state)) as [o l].
  simpl. by intros ->.
Qed.

(** X11.  search returns None only when a test of the loop condition has found
    the budget used up: the elapsed time that the test computed, the float
    time() - start_time, was not below the limit.  And once the elapsed time
    computed at the N-th test is not below the limit, the call has ended by
    then: N iterations of fuel are enough for the model to finish. *)
Theorem search_deadline (fuel : nat) :
  (search elapsed graph is_goal limit heuristic state fuel = NoPlan →
   ∃ k, (1 ≤ k ≤ S fuel)%nat ∧ (limit <= elapsed k)%Q) ∧
  (∀ N, (1 ≤ N ≤ S fuel)%nat → (limit <= elapsed N)%Q →
        search elapsed graph is_goal limit heuristic state fuel ≠ Unfinished).
Proof.
  unfold search, search_run.
  pose proof (loop_result fuel 1 (initial state) (reach_initial _ _ _ _)) as H.
  destruct (loop _ _ _ _ _ fuel 1%nat (initial state)) as [o l].
  simpl. split.
  - intros ->. destruct H as (k & Hk & Hlate). exists k.
    split; [lia | by apply in_time_false].
  - intros N HN Hlate%in_time_false ->. rewrite H in Hlate by lia. done.
Qed.

(* When the goal test, the heuristic and the generator do not raise, and the
   elapsed time found by the N-th test is not below the limit, a call of
   search with fuel for N iterations ends in one of four ways. *)
Lemma search_outcome (fuel N : nat) :
  (∀ s, ∃ b, is_goal s = Ok b) →
  (∀ s, ∃ h, heuristic s = Ok h) →
  (∀ s, (graph s).2 = None) →
  (limit <= elapsed N)%Q → (1 ≤ N ≤ S fuel)%nat →
  (∃ path, search elapsed graph is_goal limit heuristic state fuel = Plan path ∧
           complete graph is_goal state path) ∨
  search elapsed graph is_goal limit heuristic state fuel = NoPlan ∨
  ((search_run elapsed graph is_goal limit heuristic state fuel).1
   = Raised IndexError ∧
   queue (search_run elapsed graph is_goal limit heuristic state fuel).2 = []) ∨
  search elapsed graph is_goal limit heuristic state fuel = Raised OverflowError.
Proof.
  intros Hgoal Hheur Hgraph Hlate%in_time_false HN. unfold search, search_run.
  pose proof (loop_result fuel 1 (initial state) (reach_initial _ _ _ _)) as H.
  destruct (loop _ _ _ _ _ fuel 1%nat (initial state)) as [[path| |e|] l];
    simpl.
  - left. exists path. split; [done|]. by destruct H as [? _].
  - by right; left.
  - destruct H as [[-> Hq]|[->|[(s & _ & [Hs|Hs])|(s & a & s' & c & _ & _ & Hs)]]].
    + by right; right; left.
    + by right; right; right.
    + destruct (Hgoal s) as [b Hb]. congruence.
    + rewrite Hgraph in Hs. done.
    + destruct (Hheur s') as [h Hh]. congruence.
  - rewrite H in Hlate by lia. done.
Qed.
End result.

Lemma search_plan_sound_witness :
  complete (graph recipes_A) (make_goal_checker goal_A) start_A
    [(start_A, None); (final_A, Some "craft_plank")] ∧
  NoDup [(start_A, @None string); (final_A, Some "craft_plank")].*1.
Proof.
  apply (search_plan_sound ms_clock (graph recipes_A) (make_goal_checker goal_A)
           30 zero_heuristic start_A 2).
  reflexivity.
Defined.

Lemma search_Raised_witness :
  (KeyError "furnace" = IndexError ∧
   queue (search_run ms_clock (graph recipes_A) (make_goal_checker goal_A) 30
            heuristic start_A 2).2 = []) ∨
  KeyError "furnace" = OverflowError ∨
  passed_on (graph recipes_A) (make_goal_checker goal_A) heuristic
    (search_run ms_clock (graph recipes_A) (make_goal_checker goal_A) 30
       heuristic start_A 2).2 (KeyError "furnace").
Proof.
  apply (search_Raised ms_clock (graph recipes_A) (make_goal_checker goal_A)
           30 heuristic start_A 2).
  reflexivity.
Defined.

Lemma popped_priority_witness :
  ∃ c, cost after_one_A !! final_A = Some c ∧
       ((final_A = start_A ∧ Fin 1 = c) ∨
        (∃ h, zero_heuristic final_A = Ok h ∧ num_add c h = Ok (Fin 1))).
Proof.
  apply (popped_priority (graph recipes_A) (make_goal_checker goal_A)
           zero_heuristic start_A after_one_A (Fin 1) final_A
           (Some "craft_plank") []).
  - apply (reach_iteration _ _ _ _ (initial start_A)).
    + apply reach_initial.
    + vm_compute. reflexivity.
  - vm_compute. reflexivity.
Defined.

(** * Further properties of the state model and the heuristic *)

(** ** The values of the heuristic *)

Lemma tools_loop_Raise (state : State) (ts : list string) e :
  tools_loop state ts = Raise e →
  ∃ k, e = KeyError k ∧ k ∈ ts ∧ k ∉ keys state.
Proof.
  induction ts as [|tool rest IH]; simpl; [done|].
  destruct (getitem state tool) as [q|e'] eqn:Hq; simpl.
  - destruct (q >? 1); [done|]. intros (k & -> & Hin & Hnin)%IH.
    exists k. split; [done|]. split; [by right | done].
  - intros [= <-]. apply getitem_Raise in Hq as [-> Hnin].
    exists tool. split; [done|]. split; [left | done].
Qed.

Lemma materials_loop_Raise (state : State) (materials : list (string * Z))
    (ks : list string) e :
  ks ⊆ keys materials →
  materials_loop state materials ks = Raise e →
  ∃ k, e = KeyError k ∧ k ∈ ks ∧ k ∉ keys state.
Proof.
  induction ks as [|material rest IH]; simpl; intros Hsub; [done|].
  destruct (getitem state material) as [q|e'] eqn:Hq; simpl.
  - destruct (getitem_covered materials material) as [cap ->];
      [apply Hsub; left|]. simpl.
    destruct (q >? cap); [done|]. intros (k & -> & Hin & Hnin)%IH.
    + exists k. split; [done|]. split; [by right | done].
    + intros k Hk. apply Hsub. by right.
  - intros [= <-]. apply getitem_Raise in Hq as [-> Hnin].
    exists material. split; [done|]. split; [left | done].
Qed.

(** X13.  On any state whatever, the heuristic either returns 0 or inf, or
    raises KeyError for one of its fifteen item names that the state does not
    have. *)
Theorem heuristic_range (state : State) :
  (∀ v, heuristic state = Ok v → v = Fin 0 ∨ v = Inf) ∧
  (∀ e, heuristic state = Raise e →
        ∃ k, e = KeyError k ∧ k ∈ heuristic_items ∧ k ∉ keys state).
Proof.
  unfold heuristic.
  destruct (tools_loop state tools) as [[]|e1] eqn:Ht;
    rewrite ?Ok_bind, ?Raise_bind.
  - split; [intros v [= <-]; by right | done].
  - destruct (materials_loop state materials_with_heuristic_value
                (keys materials_with_heuristic_value)) as [[]|e2] eqn:Hm;
      rewrite ?Ok_bind, ?Raise_bind.
    + split; [intros v [= <-]; by right | done].
    + split; [intros v [= <-]; by left | done].
    + split; [done|]. intros e [= <-].
      apply materials_loop_Raise in Hm as (k & -> & Hin & Hnin); [|done].
      exists k. split; [done|]. split; [|done].
      change (k ∈ tools ++ keys materials_with_heuristic_value).
      apply elem_of_app. by right.
  - split; [done|]. intros e [= <-].
    apply tools_loop_Raise in Ht as (k & -> & Hin & Hnin).
    exists k. split; [done|]. split; [|done].
    change (k ∈ tools ++ keys materials_with_heuristic_value).
    apply elem_of_app. by left.
Qed.

(** ** The order on States *)

Lemma string_compare_refl (a : string) : String.compare a a = Eq.
Proof.
  induction a as [|c a IH]; simpl; [done|].
  unfold Ascii.compare. by rewrite N.compare_refl.
Qed.

Lemma string_compare_trans (a : string) :
  ∀ b c, String.compare a b = Lt → String.compare b c = Lt →
         String.compare a c = Lt.
Proof.
  induction a as [|x a IH]; intros [|y b] [|z c]; simpl; try done.
  unfold Ascii.compare.
  destruct (N.compare_spec (Ascii.N_of_ascii x) (Ascii.N_of_ascii y)) as [Hxy|Hxy|Hxy];
    destruct (N.compare_spec (Ascii.N_of_ascii y) (Ascii.N_of_ascii z)) as [Hyz|Hyz|Hyz];
    try done.
  - rewrite Hxy, Hyz, N.compare_refl. apply IH.
  - intros _ _. rewrite Hxy.
    by rewrite (proj2 (N.compare_lt_iff _ _) Hyz).
  - intros _ _. rewrite <- Hyz.
    by rewrite (proj2 (N.compare_lt_iff _ _) Hxy).
  - intros _ _.
    by rewrite (proj2 (N.compare_lt_iff _ _) (N.lt_trans _ _ _ Hxy Hyz)).
Qed.

Lemma pair_ltb_irrefl (a : string * Z) : pair_ltb a a = false.
Proof. unfold pair_ltb. rewrite string_compare_refl. apply Z.ltb_irrefl. Qed.

Lemma pair_ltb_trans (a b c : string * Z) :
  pair_ltb a b = true → pair_ltb b c = true → pair_ltb a c = true.
Proof.
  unfold pair_ltb.
  destruct (String.compare a.1 b.1) eqn:Hab; [| |done];
    destruct (String.compare b.1 c.1) eqn:Hbc; try done.
  - apply String.compare_eq_iff in Hab, Hbc. rewrite Hab, Hbc.
    rewrite string_compare_refl. intros ?%Z.ltb_lt ?%Z.ltb_lt.
    apply Z.ltb_lt. lia.
  - apply String.compare_eq_iff in Hab. by rewrite Hab, Hbc.
  - apply String.compare_eq_iff in Hbc. by rewrite <- Hbc, Hab.
  - by rewrite (string_compare_trans _ _ _ Hab Hbc).
Qed.

Lemma pair_ltb_total (a b : string * Z) :
  a ≠ b → pair_ltb a b = negb (pair_ltb b a).
Proof.
  intros Hne. unfold pair_ltb. rewrite (String.compare_antisym b.1 a.1).
  destruct (String.compare a.1 b.1) eqn:Hab; simpl; [|done..].
  apply String.compare_eq_iff in Hab.
  destruct (Z.ltb_spec a.2 b.2), (Z.ltb_spec b.2 a.2); try done; [lia|].
  destruct Hne. destruct a, b; simpl in *. f_equal; [done | lia].
Qed.

(** X14.  The order that __lt__ puts on States is a strict total order:
    no State is below itself, the order is transitive, and of two different
    States exactly one is below the other. *)
Theorem State_lt_strict_total :
  (∀ s : State, State_lt s s = false) ∧
  (∀ s t u : State,
     State_lt s t = true → State_lt t u = true → State_lt s u = true) ∧
  (∀ s t : State, s ≠ t → State_lt s t = negb (State_lt t s)).
Proof.
  split; [|split].
  - intros s. induction s as [|a s IH]; simpl; [done|].
    by destruct (decide (a = a)).
  - intros s. induction s as [|a s IH]; intros [|b t] [|c u]; simpl; try done.
    intros Hst Htu.
    destruct (decide (a = b)) as [Hab|Hab], (decide (b = c)) as [Hbc|Hbc],
      (decide (a = c)) as [Hac|Hac]; try congruence.
    + by apply (IH t u).
    + subst c. rewrite (pair_ltb_total a b) in Hst by done.
      by rewrite Htu in Hst.
    + by eapply pair_ltb_trans.
  - intros s. induction s as [|a s IH]; intros [|b t] Hne; simpl; try done.
    destruct (decide (a = b)) as [->|Hab].
    + rewrite decide_True by done. apply IH. congruence.
    + rewrite decide_False by congruence. by apply pair_ltb_total.
Qed.

(** * The program *)

(** ** The initial state *)

Lemma update_nil (other : list (string * Z)) :
  NoDup (keys other) → update [] other = other.
Proof. apply State_copy_id. Qed.

Lemma update_spec (other : list (string * Z)) :
  ∀ state : State,
  keys other ⊆ keys state → NoDup (keys other) →
  keys (update state other) = keys state ∧
  ∀ i q, getitem state i = Ok q →
         getitem (update state other) i = Ok (dict_get other i q).
Proof.
  unfold update.
  induction other as [|[k v] rest IH]; intros state Hsub Hnd; simpl; [done|].
  unfold keys in Hnd. simpl in Hnd. apply NoDup_cons in Hnd as [Hfresh Hnd].
  assert (k ∈ keys state) as Hk by (apply Hsub; left).
  destruct (IH (setitem state k v)) as [Hkeys Hget]; [|done|].
  { rewrite keys_setitem_old by done. intros j Hj. apply Hsub. by right. }
  split; [by rewrite Hkeys, keys_setitem_old|].
  intros i q Hq. case_decide as Hi.
  - subst i. rewrite (Hget k v) by apply getitem_setitem_eq.
    by rewrite dict_get_absent.
  - apply Hget. by rewrite getitem_setitem_ne.
Qed.

Lemma zeros_keys (items : list string) :
  keys ((λ key, (key, 0)) <$> items) = items.
Proof.
  unfold keys. rewrite <- list_fmap_compose. apply list_fmap_id.
Qed.

Lemma zeros_getitem (items : list string) i :
  i ∈ items → getitem ((λ key, (key, 0)) <$> items) i = Ok 0.
Proof.
  induction items as [|k rest IH]; simpl; intros Hin; [by inversion Hin|].
  case_decide as Hk; [done|]. apply IH.
  apply elem_of_cons in Hin as [?|?]; [congruence | done].
Qed.

Lemma initial_state_keys (c : Crafting) :
  NoDup (Items c) → keys (Initial c) ⊆ Items c → NoDup (keys (Initial c)) →
  keys (initial_state c) = Items c.
Proof.
  intros Hnd Hsub Hinit. unfold initial_state.
  assert (NoDup (keys ((λ key, (key, 0)) <$> Items c))) as Hzeros
    by by rewrite zeros_keys.
  rewrite !(update_nil ((λ key, (key, 0)) <$> Items c)) by done.
  destruct (update_spec (Initial c) ((λ key, (key, 0)) <$> Items c))
    as [Hkeys _]; [by rewrite zeros_keys | done |].
  by rewrite Hkeys, zeros_keys.
Qed.

(** X15.  The state that __main__ builds covers the catalog, in the order of
    Crafting['Items'], and holds for every item the quantity that
    Crafting['Initial'] gives it, or 0 when Initial does not mention it
    (for a catalog without repetition and an Initial dictionary over it). *)
Theorem initial_state_spec (c : Crafting) :
  NoDup (Items c) →
  keys (Initial c) ⊆ Items c →
  NoDup (keys (Initial c)) →
  over_catalog (Items c) (initial_state c) ∧
  ∀ i, i ∈ Items c →
       getitem (initial_state c) i = Ok (dict_get (Initial c) i 0).
Proof.
  intros Hnd Hsub Hinit. unfold initial_state, over_catalog.
  assert (NoDup (keys ((λ key, (key, 0)) <$> Items c))) as Hzeros
    by by rewrite zeros_keys.
  rewrite !(update_nil ((λ key, (key, 0)) <$> Items c)) by done.
  destruct (update_spec (Initial c) ((λ key, (key, 0)) <$> Items c))
    as [Hkeys Hget]; [by rewrite zeros_keys | done |].
  split; [by rewrite Hkeys, zeros_keys|].
  intros i Hi. apply Hget. by apply zeros_getitem.
Qed.

Lemma initial_state_spec_witness :
  over_catalog (Items crafting_W) (initial_state crafting_W) ∧
  ∀ i, i ∈ Items crafting_W →
       getitem (initial_state crafting_W) i
       = Ok (dict_get (Initial crafting_W) i 0).
Proof.
  apply initial_state_spec; by apply (bool_decide_unpack _).
Defined.

(** ** States met by a search *)

Lemma graph_elem (all_recipes : list Recipe.t) (state : State) a s c :
  (a, s, c) ∈ (graph all_recipes state).1 →
  ∃ r, r ∈ all_recipes ∧ Recipe.check r state = Ok true ∧
       Recipe.effect r state = Ok s.
Proof.
  induction all_recipes as [|r rest IH]; simpl; [by intros H; inversion H|].
  assert ((a, s, c) ∈ (graph rest state).1 →
          ∃ r0, r0 ∈ r :: rest ∧ Recipe.check r0 state = Ok true ∧
                Recipe.effect r0 state = Ok s) as IH'.
  { intros (r0 & Hr0 & Heff)%IH. exists r0. split; [by right | done]. }
  destruct (Recipe.check r state) as [[]|] eqn:Hcheck; simpl;
    [|done|by intros H; inversion H].
  destruct (Recipe.effect r state) as [next_state|] eqn:Heff; simpl;
    [|by intros H; inversion H].
  destruct (graph rest state) as [ys ending]. simpl in *.
  intros [[= _ <- _]|Hin]%elem_of_cons; [|by apply IH'].
  exists r. split; [left | done].
Qed.

Lemma make_effector_keys (rule : Rule) (state s : State) :
  NoDup (keys state) → make_effector rule state = Ok s → keys s = keys state.
Proof.
  intros Hnd. unfold make_effector. rewrite State_copy_id by done.
  rewrite bind_Ok. intros (s1 & [Hk1 _]%produce_Ok & Hs).
  destruct (Consumes rule) as [consumes|]; [|congruence].
  rewrite consume_as_produce in Hs. apply produce_Ok in Hs as [Hk _].
  congruence.
Qed.

Section within.
Variable graph : State → list triple * option exn.
Variable is_goal : State → result bool.
Variable heuristic : State → result num.
Variable state : State.
Variable P : State → Prop.
Hypothesis P_start : P state.
Hypothesis P_graph : ∀ s a s' c, P s → (a, s', c) ∈ (graph s).1 → P s'.

Lemma within_relax current_cost current_state yields :
  ∀ l l', Forall P (visited l) →
          Forall P yields.*1.*2 →
          relax heuristic current_cost current_state yields l = Ok l' →
          Forall P (visited l').
Proof.
  induction yields as [|[[node_action node_state] node_cost] rest IH];
    intros l l' Hl Hys; simpl.
  - by intros [= <-].
  - apply Forall_cons in Hys as [Hnode Hys].
    rewrite bind_Ok. intros (new_cost & _ & (l1 & Hstep & Hrest)%bind_Ok).
    apply (IH l1); [|done..].
    destruct (admissible _ node_state l); [|by injection Hstep as <-].
    apply accept_Ok in Hstep as (h & priority & _ & _ & ->).
    simpl. apply Forall_app. split; [done|]. by apply Forall_singleton.
Qed.

Lemma within_reachable (l : locals) :
  reachable graph is_goal heuristic state l → Forall P (visited l).
Proof.
  induction 1 as [|l l' Hreach IH Hbody]; [by apply Forall_singleton|].
  apply body_Continue in Hbody as (c & s & a & rest & Hpop & _ & Hfor).
  apply for_each_relax in Hfor.
  destruct (popped_visited _ _ _ _ _ _ _ Hreach Hpop) as [_ Hvis].
  eapply within_relax; [|  |exact Hfor]; [done|].
  apply Forall_forall. intros s' Hs'.
  apply list_elem_of_fmap in Hs' as ([a' s''] & -> & Hin).
  apply list_elem_of_fmap in Hin as ([[a'' s3] c'] & [= <- <-] & Hin).
  rewrite Forall_forall in IH. eapply P_graph; [|done]. by apply IH.
Qed.

Lemma body_Break_visited (l l' : locals) o :
  body graph is_goal heuristic l = Break o l' → visited l' = visited l.
Proof.
  unfold body. destruct (heappop (queue l)) as [[[[c s] a] rest]|];
    [|by intros [= _ <-]].
  destruct (is_goal s) as [[]|]; [| |by intros [= _ <-]].
  - case_match; by intros [= _ <-].
  - case_match; [done | by intros [= _ <-]].
Qed.

Lemma within_loop elapsed limit (fuel : nat) :
  ∀ n l, reachable graph is_goal heuristic state l →
         Forall P (visited (loop elapsed graph is_goal limit heuristic fuel n l).2).
Proof.
  induction fuel as [|fuel IH]; intros n l Hreach; simpl.
  - destruct (in_time elapsed limit n); by apply within_reachable.
  - destruct (in_time elapsed limit n); [|by apply within_reachable].
    destruct (body graph is_goal heuristic l) as [l'|o l'] eqn:Hb.
    + apply IH. by eapply reach_iteration.
    + simpl. rewrite (body_Break_visited _ _ _ Hb). by apply within_reachable.
Qed.
End within.

(** ** The search of __main__ *)

Lemma heuristic_total_on (state : State) :
  heuristic_items ⊆ keys state → ∃ h, heuristic state = Ok h.
Proof.
  intros Hsub. unfold heuristic.
  destruct (tools_loop_spec state tools) as (b1 & -> & _).
  { intros k Hk. apply Hsub.
    change (k ∈ tools ++ keys materials_with_heuristic_value).
    apply elem_of_app. by left. }
  rewrite Ok_bind. destruct b1; [by eauto|].
  destruct (materials_loop_spec state materials_with_heuristic_value
              (keys materials_with_heuristic_value)) as (b2 & -> & _); [|done|].
  { intros k Hk. apply Hsub.
    change (k ∈ tools ++ keys materials_with_heuristic_value).
    apply elem_of_app. by right. }
  rewrite Ok_bind. destruct b2; by eauto.
Qed.

(** X16.  On a Crafting file that fits the program (a catalog without
    repetition that has the fifteen items of the heuristic; initial inventory,
    goal and rules over the catalog) the search of __main__ raises nothing
    but IndexError, from popping an empty frontier, and OverflowError, from
    adding a cost beyond the float range to inf: no KeyError comes from a
    precondition, an effect, the goal test or the heuristic. *)
Theorem main_Raised (elapsed : nat → Q) (c : Crafting) (fuel : nat) (e : exn) :
  fits c →
  main elapsed c fuel = Raised e →
  e = IndexError ∨ e = OverflowError.
Proof.
  intros (Hnd & Hheur & Hinit & HndI & Hgoal & Hrules).
  pose proof (initial_state_keys c Hnd Hinit HndI) as Hstart.
  unfold main, search, search_run.
  set (g := graph (compile_all (Recipes c))).
  set (is_goal := make_goal_checker (Goal c)).
  assert (∀ s a s' k, keys s = Items c → (a, s', k) ∈ (g s).1 →
                      keys s' = Items c) as Hclosed.
  { intros s a s' k Hs Hin. apply graph_elem in Hin as (r & Hr & _ & Heff).
    apply list_elem_of_fmap in Hr as ([name rule] & -> & _). simpl in Heff.
    rewrite <- Hs. apply (make_effector_keys rule); [by rewrite Hs | done]. }
  pose proof (loop_result elapsed g is_goal 30 heuristic (initial_state c) fuel 1
                (initial (initial_state c)) (reach_initial _ _ _ _)) as Hres.
  pose proof (within_loop g is_goal heuristic (initial_state c)
                (λ s, keys s = Items c) Hstart Hclosed elapsed 30 fuel 1
                (initial (initial_state c)) (reach_initial _ _ _ _)) as Hin.
  destruct (loop elapsed g is_goal 30 heuristic fuel 1 (initial (initial_state c)))
    as [o l]. simpl in *. intros ->.
  destruct Hres
    as [[-> _]|[->|[(s & Hs & Hraise)|(s & a & s' & k & Hs & Hedge & Hraise)]]];
    [by left | by right |..]; rewrite Forall_forall in Hin; apply Hin in Hs.
  - destruct Hraise as [Hraise|Hraise].
    + unfold is_goal in Hraise. rewrite goal_as_consumes in Hraise.
      destruct (check_consumes_total s (Goal c)) as [b Hb]; [by rewrite Hs|].
      congruence.
    + destruct (graph_yields (compile_all (Recipes c)) s) as (ys & Hys & _).
      { unfold compile_all. apply Forall_fmap. eapply Forall_impl; [done|].
        intros [name rule] Hrule. simpl.
        apply (compiled_evaluates (Items c)); [done | exact Hs | done]. }
      unfold g in Hraise. rewrite Hys in Hraise. done.
  - destruct (heuristic_total_on s') as [h Hh]; [|congruence].
    by rewrite (Hclosed s a s' k Hs Hedge).
Qed.

Lemma main_Raised_witness : IndexError = IndexError ∨ IndexError = OverflowError.
Proof.
  apply (main_Raised ms_clock
           {| Items := heuristic_items; Initial := []; Goal := [("plank", 1)];
              Recipes := [("craft_plank", craft_plank)] |} 2 IndexError).
  - unfold fits. simpl. split; [by apply (bool_decide_unpack _)|].
    split; [done|]. split; [by apply (bool_decide_unpack _)|].
    split; [by apply (bool_decide_unpack _)|].
    split; [by apply (bool_decide_unpack _)|].
    apply Forall_cons. split; [|by apply Forall_nil].
    unfold well_formed. simpl.
    split; [|split]; by apply (bool_decide_unpack _).
  - vm_compute. reflexivity.
Defined.

(* OverflowError does occur: the first neighbour of the run on [crafting_O]
   costs 2^1024 and is pruned, and line 173 adds inf to that cost. *)
Lemma main_overflow :
  fits crafting_O ∧ main ms_clock crafting_O 2 = Raised OverflowError.
Proof.
  split; [|vm_compute; reflexivity].
  unfold fits. simpl. split; [by apply (bool_decide_unpack _)|].
  split; [done|]. split; [by apply (bool_decide_unpack _)|].
  split; [by apply (bool_decide_unpack _)|].
  split; [by apply (bool_decide_unpack _)|].
  apply Forall_cons. split; [|by apply Forall_nil].
  unfold well_formed. simpl.
  split; [|split]; by apply (bool_decide_unpack _).
Qed.

(** ** The states of a plan *)

Lemma initial_state_nonnegative (c : Crafting) :
  NoDup (Items c) → keys (Initial c) ⊆ Items c → NoDup (keys (Initial c)) →
  Forall (λ kv, 0 ≤ kv.2) (Initial c) →
  nonnegative (initial_state c).
Proof.
  intros Hnd Hsub Hinit Hpos.
  apply nonnegative_intro; [by rewrite initial_state_keys|].
  intros k v Hv.
  pose proof (getitem_Ok_covered _ _ _ Hv) as Hk.
  rewrite initial_state_keys in Hk by done.
  revert Hv. unfold initial_state.
  assert (NoDup (keys ((λ key, (key, 0)) <$> Items c))) as Hzeros
    by by rewrite zeros_keys.
  rewrite !(update_nil ((λ key, (key, 0)) <$> Items c)) by done.
  destruct (update_spec (Initial c) ((λ key, (key, 0)) <$> Items c))
    as [_ Hget]; [by rewrite zeros_keys | done |].
  rewrite (Hget k 0) by by apply zeros_getitem.
  intros [= <-]. by apply dict_get_nonneg.
Qed.

(** X17.  On a Crafting file that fits the program and has no negative amount
    in its initial inventory or in what its rules produce, every state of a
    plan returned by the search of __main__ is over the catalog, in the
    catalog's order, and has no negative quantity. *)
Theorem main_plan_states (elapsed : nat → Q) (c : Crafting) (fuel : nat)
    (path : plan) :
  fits c →
  sound_amounts c →
  main elapsed c fuel = Plan path →
  Forall (λ sa, over_catalog (Items c) sa.1 ∧ nonnegative sa.1) path.
Proof.
  intros (Hnd & Hheur & Hinit & HndI & Hgoal & Hrules) [Hpos Hprod].
  unfold main, search, search_run.
  set (g := graph (compile_all (Recipes c))).
  set (is_goal := make_goal_checker (Goal c)).
  set (P := λ s : State, keys s = Items c ∧ nonnegative s).
  assert (P (initial_state c)) as Hstart.
  { split; [by apply initial_state_keys | by apply initial_state_nonnegative]. }
  assert (∀ s a s' k, P s → (a, s', k) ∈ (g s).1 → P s') as Hclosed.
  { intros s a s' k [Hs Hs0] Hin.
    apply graph_elem in Hin as (r & Hr & Hcheck & Heff).
    apply list_elem_of_fmap in Hr as ([name rule] & -> & Hrule).
    simpl in Hcheck, Heff.
    rewrite Forall_forall in Hrules, Hprod.
    specialize (Hrules _ Hrule). specialize (Hprod _ Hrule). simpl in *.
    destruct (effect_lower_bound rule s) as (s0 & Hs0' & Hkeys & Hbound);
      [by rewrite Hs | by rewrite Hs | done | done |].
    assert (s0 = s') as -> by congruence.
    split; [congruence|].
    apply nonnegative_intro; [by rewrite Hkeys, Hs|].
    intros i v Hv. specialize (Hbound i v Hv).
    pose proof (dict_get_nonneg (Produces rule) i Hprod). lia. }
  pose proof (loop_result elapsed g is_goal 30 heuristic (initial_state c) fuel 1
                (initial (initial_state c)) (reach_initial _ _ _ _)) as Hres.
  pose proof (within_loop g is_goal heuristic (initial_state c) P Hstart
                Hclosed elapsed 30 fuel 1 (initial (initial_state c))
                (reach_initial _ _ _ _)) as Hin.
  destruct (loop elapsed g is_goal 30 heuristic fuel 1 (initial (initial_state c)))
    as [o l]. simpl in *. intros ->.
  destruct Hres as (_ & _ & Hvis). rewrite Forall_forall in Hin.
  apply Forall_forall. intros [s a] Hsa. simpl.
  apply (Hin s), Hvis, list_elem_of_fmap. by exists (s, a).
Qed.

Lemma main_plan_states_witness :
  Forall (λ sa, over_catalog (Items crafting_W) sa.1 ∧ nonnegative sa.1)
    [(initial_state crafting_W, None);
     (setitem (with_wood 0) "plank" 4, Some "craft_plank")].
Proof.
  apply (main_plan_states ms_clock crafting_W 3).
  - unfold fits. simpl. split; [by apply (bool_decide_unpack _)|].
    split; [done|]. split; [by apply (bool_decide_unpack _)|].
    split; [by apply (bool_decide_unpack _)|].
    split; [by apply (bool_decide_unpack _)|].
    repeat (apply Forall_cons; split); try by apply Forall_nil.
    + unfold well_formed. simpl.
      split; [|split]; by apply (bool_decide_unpack _).
    + unfold well_formed. simpl.
      split; [|split]; by apply (bool_decide_unpack _).
  - split; simpl; repeat (apply Forall_cons; split); try by apply Forall_nil.
    all: simpl; lia.
  - vm_compute. reflexivity.
Defined.
